(** * whisper-analysis: the decode worker and the surface that drives it

    Two source files are embedded here.

    - [public/worker.js]: the message listener of the background worker.  On
      every inbound message it fetches the model assets, builds a [Decoder],
      fetches the audio, decodes it and posts the parsed payload.
    - the React component [App]: the handlers [handleChange], [handleDrop],
      [handleAnalysis] and [onMessage] over the component state
      ([audioSrc], [text]).

    JavaScript values are dynamically typed, so the payload that travels from
    the engine to the surface is modelled as a [Js.value]; promises are
    modelled by the outcome they settle with; what the browser and the wasm
    engine do is collected in a [World] record. *)

From Stdlib Require Import String Ascii List Bool Arith Lia.
From Stdlib Require Import Strings.Byte.
Import ListNotations.
Local Open Scope string_scope.
Local Open Scope list_scope.
Set Warnings "-register-all".

(* ================================================================== *)
(** ** JavaScript values and the few built-ins the program relies on  *)
(* ================================================================== *)

Module Js.

(** What [JSON.parse] can return, plus [undefined].  A number is carried
    as the text [Number.prototype.toString] prints for it; an object keeps
    its own properties in insertion order. *)
Inductive value : Type :=
| VUndefined
| VNull
| VBool (b : bool)
| VNum (repr : string)
| VStr (s : string)
| VArr (items : list value)
| VObj (props : list (string * value)).

(** Thrown values and rejection reasons. *)
Inductive exn : Type :=
| TypeError (msg : string)
| SyntaxError (msg : string)
| Thrown (what : string).

(** An abrupt ([inl]) or normal ([inr]) completion. *)
Definition completion (A : Type) : Type := (exn + A)%type.

Definition is_nullish (v : value) : bool :=
  match v with
  | VUndefined | VNull => true
  | _ => false
  end.

Fixpoint assoc (k : string) (props : list (string * value)) : option value :=
  match props with
  | [] => None
  | (k', v) :: rest => if String.eqb k k' then Some v else assoc k rest
  end.

(** [v.k] for a property name [k] that no built-in prototype defines
    (the program reads only [status], [output], [dr], [text] and
    [audioSrc]): reading from [undefined] or [null] throws, an object
    yields its own property, anything else yields [undefined]. *)
Definition get (k : string) (v : value) : completion value :=
  match v with
  | VUndefined => inl (TypeError "Cannot read properties of undefined")
  | VNull => inl (TypeError "Cannot read properties of null")
  | VObj props =>
      inr (match assoc k props with Some x => x | None => VUndefined end)
  | _ => inr VUndefined
  end.

(** [a === "s"] against a string literal. *)
Definition strict_eq_str (a : value) (s : string) : bool :=
  match a with
  | VStr s' => String.eqb s' s
  | _ => false
  end.

(** The string [ToString] gives for a value it can convert; an array is
    printed as its elements joined by commas, [undefined] and [null]
    elements as the empty string.  Whether the conversion goes through
    at all is [unprintable], below. *)
Fixpoint to_string (v : value) : string :=
  match v with
  | VUndefined => "undefined"
  | VNull => "null"
  | VBool true => "true"
  | VBool false => "false"
  | VNum repr => repr
  | VStr s => s
  | VArr items =>
      String.concat ","
        (map (fun x => if is_nullish x then EmptyString else to_string x)
             items)
  | VObj _ => "[object Object]"
  end.

(** The values [ToString] throws on.  An object is converted by calling
    its [toString]; a parsed or cloned object can only hold data under
    that name, never a function, so an own [toString] property makes the
    conversion throw, and so does an array that has such an object among
    the elements it prints. *)
Fixpoint unprintable (v : value) : bool :=
  match v with
  | VObj props =>
      match assoc "toString" props with
      | Some _ => true
      | None => false
      end
  | VArr items => existsb unprintable items
  | _ => false
  end.

(** [ToString] *)
Definition ToString (v : value) : completion string :=
  if unprintable v
  then inl (TypeError "Cannot convert object to primitive value")
  else inr (to_string v).

(** [xs.map(f)] where [f] may throw: elements are visited left to right
    and the first throw escapes. *)
Fixpoint map_throwing {A B : Type} (f : A -> completion B) (xs : list A)
  : completion (list B) :=
  match xs with
  | [] => inr []
  | x :: rest =>
      match f x with
      | inl e => inl e
      | inr y =>
          match map_throwing f rest with
          | inl e => inl e
          | inr ys => inr (y :: ys)
          end
      end
  end.

(** [Array.prototype.join]: the elements are converted left to right,
    [undefined] and [null] to the empty string, and the first conversion
    that throws escapes. *)
Definition join (sep : string) (items : list value) : completion string :=
  match
    map_throwing
      (fun x => if is_nullish x then inr EmptyString else ToString x) items
  with
  | inl e => inl e
  | inr parts => inr (String.concat sep parts)
  end.

(** [v.map(f)] on a dynamically typed receiver: only an array has [map];
    on anything else the call throws. *)
Definition array_map (f : value -> completion value) (v : value)
  : completion (list value) :=
  match v with
  | VArr items => map_throwing f items
  | VUndefined => inl (TypeError "Cannot read properties of undefined")
  | VNull => inl (TypeError "Cannot read properties of null")
  | _ => inl (TypeError "map is not a function")
  end.

End Js.

(* ================================================================== *)
(** ** The interactive surface: component [App]                       *)
(* ================================================================== *)

Module App.
Import Js.

(** Component state: the two [useState] cells and the class list of the
    element behind [ref] ([None] while [ref.current] is [null]). *)
Record Surface : Type := mkSurface {
  audioSrc : string;
  text : string;
  classList : option (list string)
}.

(** The first render: [useState('')] twice. *)
Definition initial (cl : option (list string)) : Surface :=
  mkSurface EmptyString EmptyString cl.

(** Handlers run in a state-and-exception monad: the state reached when
    a handler throws is the state at the throw. *)
Definition M (A : Type) : Type := Surface -> completion A * Surface.

Definition ret {A} (a : A) : M A := fun s => (inr a, s).

Definition bind {A B} (m : M A) (f : A -> M B) : M B :=
  fun s =>
    match m s with
    | (inl e, s') => (inl e, s')
    | (inr a, s') => f a s'
    end.

Definition lift {A} (c : completion A) : M A := fun s => (c, s).

Notation "x <- m ;; k" := (bind m (fun x => k))
  (at level 61, m at next level, right associativity).
Notation "m ;;; k" := (bind m (fun _ => k))
  (at level 61, right associativity).

Definition setAudioSrc (u : string) : M unit :=
  fun s => (inr tt, mkSurface u (text s) (classList s)).

Definition setText (t : string) : M unit :=
  fun s => (inr tt, mkSurface (audioSrc s) t (classList s)).

(** [ref.current?.classList.remove(token)] *)
Definition classList_remove (token : string) : M unit :=
  fun s =>
    (inr tt,
     mkSurface (audioSrc s) (text s)
       (option_map (filter (fun c => negb (String.eqb c token)))
                   (classList s))).

Section Files.
(** Files are opaque to the component.  [URL.createObjectURL] is the
    browser's and mints a new URL at every call; a handler calls it at
    most once, and [createObjectURL] stands for what that one call
    returns while the event at hand is handled.  Two events are two
    calls: their URLs are unrelated, also for the same file. *)
Variable File : Type.
Variable createObjectURL : File -> string.

(** What a drop carries: [dataTransfer.getData("text/uri-list")]
    (the empty string when the drop has no such data) and
    [dataTransfer.files]. *)
Record DragEvent : Type := mkDrag {
  uri_list : string;
  files : list File
}.

(** [if (target.files?.length) setAudioSrc(URL.createObjectURL(target.files[0]))];
    [None] is a [null] file list. *)
Definition handleChange (target_files : option (list File)) : M unit :=
  match target_files with
  | Some (f :: _) => setAudioSrc (createObjectURL f)
  | _ => ret tt
  end.

(** [handleDrop]; [e.preventDefault()] does not touch the component. *)
Definition handleDrop (e : DragEvent) : M unit :=
  classList_remove "border-blue-700" ;;;
  let url := uri_list e in
  match files e with
  | f :: _ => setAudioSrc (createObjectURL f)
  | [] =>
      match url with
      | EmptyString => ret tt
      | _ => setAudioSrc url
      end
  end.
End Files.

(** [handleAnalysis]: the message handed to [worker.postMessage], if any. *)
Definition handleAnalysis (s : Surface) : option value :=
  match audioSrc s with
  | EmptyString => None
  | src => Some (VObj [("audioSrc", VStr src)])
  end.

(** The [_ => _.dr.text] callback. *)
Definition segment_text (seg : value) : completion value :=
  match get "dr" seg with
  | inl e => inl e
  | inr dr => get "text" dr
  end.

(** [onMessage], applied to [event.data]. *)
Definition onMessage (data : value) : M unit :=
  status <- lift (get "status" data) ;;
  output <- lift (get "output" data) ;;
  if strict_eq_str status "complete" then
    texts <- lift (array_map segment_text output) ;;
    joined <- lift (join " " texts) ;;
    setText joined
  else ret tt.

(** [ref.current?.classList.add(token)]: a token already present is not
    added again. *)
Definition classList_add (token : string) : M unit :=
  fun s =>
    (inr tt,
     mkSurface (audioSrc s) (text s)
       (option_map
          (fun cl => if existsb (String.eqb token) cl then cl else cl ++ [token])
          (classList s))).

(** The inline drag handlers of the drop zone; [e.preventDefault()] does
    not touch the component. *)
Definition onDragEnter : M unit := classList_add "border-blue-700".
Definition onDragLeave : M unit := classList_remove "border-blue-700".
Definition onDragOver : M unit := classList_add "border-blue-700".

(** [!audioSrc] *)
Definition not_str (s : string) : bool :=
  match s with
  | EmptyString => true
  | _ => false
  end.

(** What the returned JSX makes of the state: the [src] and [hidden]
    attributes of the audio element, the [disabled] attribute of the
    button, and the content of the transcript section. *)
Record View : Type := mkView {
  audio_src : string;
  audio_hidden : bool;
  button_disabled : bool;
  transcript : string
}.

Definition render (s : Surface) : View :=
  mkView (audioSrc s) (not_str (audioSrc s)) (not_str (audioSrc s)) (text s).

End App.

(* ================================================================== *)
(** ** The worker: [public/worker.js]                                 *)
(* ================================================================== *)

Module Worker.
Import Js.

(** The contents of an [ArrayBuffer] or a [Uint8Array]. *)
Definition bytes : Type := list byte.

(** A promise is represented by how it settles: the instant ([tick]) and
    the outcome, rejection ([inl]) or fulfilment ([inr]). *)
Record Promise (A : Type) : Type := mkPromise {
  tick : nat;
  outcome : completion A
}.
Arguments mkPromise {A} _ _.
Arguments tick {A} _.
Arguments outcome {A} _.

(** A [Response]: the HTTP status with its [ok] flag, and what
    [arrayBuffer()] settles with. *)
Record Response : Type := mkResponse {
  ok : bool;
  status : nat;
  arrayBuffer : Promise bytes
}.

(** The nine positional arguments of [new Decoder(...)]; a buffer argument
    is [None] when the destructured array had no such position
    ([undefined]). *)
Record DecoderArgs : Type := mkArgs {
  arg1 : option bytes;
  arg2 : option bytes;
  arg3 : option bytes;
  arg4 : option bytes;
  arg5 : bool;
  arg6 : bool;
  arg7 : bool;
  arg8 : value;
  arg9 : value
}.

(** An engine instance, opaque to the worker. *)
Record Decoder : Type := mkDecoder { handle : nat }.

(** Everything outside the listener: the network behind [fetch], the wasm
    module ([init], the [Decoder] constructor and its [decode] method) and
    [JSON.parse]. *)
Record World : Type := mkWorld {
  fetch : string -> Promise Response;
  init : Promise unit;
  Decoder_new : DecoderArgs -> completion Decoder;
  decode : Decoder -> bytes -> completion string;
  JSON_parse : string -> completion value
}.

(** What a listener run does that can be seen from outside, in program
    order.  [EAwait] marks an [await]: the listener hands control back to
    the event loop there. *)
Inductive Event : Type :=
| EFetch (url : string)
| EArrayBuffer (r : Response)
| EInit
| ENew (args : DecoderArgs)
| EDecode (instance : Decoder) (audio : bytes)
| EPost (message : value)
| EAwait.

(** The listener's monad: the events so far and a completion. *)
Definition W (A : Type) : Type := (list Event * completion A)%type.

Definition ret {A} (a : A) : W A := ([], inr a).

Definition bind {A B} (m : W A) (f : A -> W B) : W B :=
  match m with
  | (t, inl e) => (t, inl e)
  | (t, inr a) => let (t', r) := f a in (t ++ t', r)
  end.

Notation "x <- m ;; k" := (bind m (fun x => k))
  (at level 61, m at next level, right associativity).
Notation "m ;;; k" := (bind m (fun _ => k))
  (at level 61, right associativity).

Definition emit (e : Event) : W unit := ([e], inr tt).

Definition lift {A} (c : completion A) : W A := ([], c).

(** [await p] *)
Definition await {A} (p : Promise A) : W A := ([EAwait], outcome p).

Fixpoint mapM {A B} (f : A -> W B) (xs : list A) : W (list B) :=
  match xs with
  | [] => ret []
  | x :: rest =>
      y <- f x ;;
      ys <- mapM f rest ;;
      ret (y :: ys)
  end.

(** [Promise.all]: rejects as soon as one input rejects, with that
    input's reason (the leftmost of those that reject at the same tick);
    otherwise fulfils, once every input has, with the values in input
    order. *)
Fixpoint earliest_rejection {A} (ps : list (Promise A)) : option (nat * exn) :=
  match ps with
  | [] => None
  | p :: rest =>
      match outcome p, earliest_rejection rest with
      | inl e, Some (t, e') =>
          if Nat.leb (tick p) t then Some (tick p, e) else Some (t, e')
      | inl e, None => Some (tick p, e)
      | inr _, r => r
      end
  end.

Definition fulfilled_values {A} (ps : list (Promise A)) : list A :=
  flat_map (fun p => match outcome p with inr a => [a] | inl _ => [] end) ps.

Definition Promise_all {A} (ps : list (Promise A)) : Promise (list A) :=
  match earliest_rejection ps with
  | Some (t, e) => mkPromise t (inl e)
  | None => mkPromise (list_max (map tick ps)) (inr (fulfilled_values ps))
  end.

(** [new Uint8Array(buffer)] views the same bytes. *)
Definition Uint8Array (buffer : bytes) : bytes := buffer.

(** The [model] constant. *)
Definition model : list string :=
  [ "https://huggingface.co/openai/whisper-tiny/resolve/main/model.safetensors";
    "model/tokenizer.json";
    "model/config.json";
    "model/mel_filters.safetensors" ].

Section Listener.
Variable w : World.

(** [fetch(url)]: the request goes out, a promise comes back. *)
Definition call_fetch (url : string) : W (Promise Response) :=
  emit (EFetch url) ;;; ret (fetch w url).

(** [fetch(input)] for any value: the input is converted with
    [ToString] first.  [fetch] returns a promise, so a conversion that
    throws gives a rejected promise, and no request goes out. *)
Definition fetch_value (input : value) : W (Promise Response) :=
  match ToString input with
  | inl e => ret (mkPromise 0 (inl e))
  | inr url => call_fetch url
  end.

(** [r.arrayBuffer()] *)
Definition call_arrayBuffer (r : Response) : W (Promise bytes) :=
  emit (EArrayBuffer r) ;;; ret (arrayBuffer r).

(** Lines 14-20, for any list of locations:
    [(await Promise.all((await Promise.all(locations.map(url => fetch(url))))
       .map(_ => _.arrayBuffer()))).map(__ => new Uint8Array(__))]. *)
Definition loadAssets (locations : list string) : W (list bytes) :=
  fetches <- mapM call_fetch locations ;;
  responses <- await (Promise_all fetches) ;;
  reads <- mapM call_arrayBuffer responses ;;
  buffers <- await (Promise_all reads) ;;
  ret (map Uint8Array buffers).

(** [new Decoder(weights, tokenizer, mel_filters, config, false, true,
    true, null, null)] *)
Definition construct (weights tokenizer mel_filters config : option bytes)
  : W Decoder :=
  let args :=
    mkArgs weights tokenizer mel_filters config false true true VNull VNull in
  emit (ENew args) ;;; lift (Decoder_new w args).

(** [instance.decode(audio)] *)
Definition call_decode (instance : Decoder) (audio : bytes) : W string :=
  emit (EDecode instance audio) ;;; lift (decode w instance audio).

(** [self.postMessage(message)] *)
Definition postMessage (message : value) : W unit := emit (EPost message).

(** The object literal [{ status: "complete", output }]. *)
Definition result_message (output : value) : value :=
  VObj [("status", VStr "complete"); ("output", output)].

(** The message listener, applied to [event.data]. *)
Definition listener (event_data : value) : W unit :=
  assets <- loadAssets model ;;
  let weights := nth_error assets 0 in
  let tokenizer := nth_error assets 1 in
  let config := nth_error assets 2 in
  let mel_filters := nth_error assets 3 in
  emit EInit ;;;
  _ <- await (init w) ;;
  instance <- construct weights tokenizer mel_filters config ;;
  audioSrc <- lift (get "audioSrc" event_data) ;;
  audio_fetch <- fetch_value audioSrc ;;
  audio_response <- await audio_fetch ;;
  audio_read <- call_arrayBuffer audio_response ;;
  audio_buffer <- await audio_read ;;
  let audio := Uint8Array audio_buffer in
  data <- call_decode instance audio ;;
  output <- lift (JSON_parse w data) ;;
  postMessage (result_message output).
End Listener.

(** A request as the worker meets it: the world at that moment and the
    message data. *)
Definition Request : Type := (World * value)%type.

(** Requests handled one after the other, each to its end.  The module has
    no mutable binding, so nothing is carried from one run to the next. *)
Definition serve (reqs : list Request) : list (W unit) :=
  map (fun r => listener (fst r) (snd r)) reqs.

(** Observations on a run. *)
Definition is_new (e : Event) : bool :=
  match e with ENew _ => true | _ => false end.
Definition is_post (e : Event) : bool :=
  match e with EPost _ => true | _ => false end.
Definition is_decode (e : Event) : bool :=
  match e with EDecode _ _ => true | _ => false end.
Definition is_fetch_of (u : string) (e : Event) : bool :=
  match e with EFetch u' => String.eqb u u' | _ => false end.
Definition is_network (e : Event) : bool :=
  match e with EFetch _ | EArrayBuffer _ | EAwait => true | _ => false end.

Definition count (p : Event -> bool) (t : list Event) : nat :=
  length (filter p t).

(** The messages a run posted, in order. *)
Definition posted (t : list Event) : list value :=
  flat_map (fun e => match e with EPost m => [m] | _ => [] end) t.

(** How a run ends: rejected with [e] having posted nothing, or fulfilled
    having posted one complete result carrying [output]. *)
Definition ends_rejected (run : W unit) (e : exn) : Prop :=
  snd run = inl e /\ posted (fst run) = [].

Definition ends_posting (run : W unit) (output : value) : Prop :=
  snd run = inr tt /\ posted (fst run) = [result_message output].

(** The steps of a run after loading, numbered in program order. *)
Definition steps (t : list Event) : list nat :=
  flat_map
    (fun e =>
       match e with
       | EInit => [0]
       | ENew _ => [1]
       | EFetch _ => [2]
       | EArrayBuffer _ => [3]
       | EDecode _ _ => [4]
       | EPost _ => [5]
       | EAwait => []
       end) t.

(** The locations a run called [fetch] on, in order. *)
Definition fetched (t : list Event) : list string :=
  flat_map (fun e => match e with EFetch u => [u] | _ => [] end) t.

End Worker.

(* ================================================================== *)
(** ** Several listener runs in flight                                *)
(* ================================================================== *)

(** The listener is an [async] function: a run gives control back at each
    [await], and the event loop may then deliver the next message or resume
    any run whose awaited promise has settled.  Which one comes first
    depends on the network, so the order is a parameter: a list of
    [Pick]s. *)
Module EventLoop.
Import Worker.

(** A run cut at its [await]s into the pieces that execute without
    interruption. *)
Fixpoint turns (t : list Event) : list (list Event) :=
  match t with
  | [] => [[]]
  | EAwait :: rest => [] :: turns rest
  | e :: rest =>
      match turns rest with
      | cur :: later => (e :: cur) :: later
      | [] => [[e]]
      end
  end.

(** Messages not yet delivered, the turns each started run still has to
    execute (position = order of delivery), and what has happened so far,
    each event with the run it belongs to. *)
Record Loop : Type := mkLoop {
  inbox : list Request;
  tasks : list (list (list Event));
  log : list (nat * Event)
}.

Definition start (reqs : list Request) : Loop := mkLoop reqs [] [].

Definition tag (id : nat) (t : list Event) : list (nat * Event) :=
  map (pair id) t.

Inductive Pick : Type :=
| Deliver
| Resume (id : nat).

(** Take the next turn of run [id], if it has one. *)
Fixpoint pop_turn (id : nat) (ts : list (list (list Event)))
  : option (list Event * list (list (list Event))) :=
  match ts, id with
  | [], _ => None
  | [] :: _, O => None
  | (t :: later) :: rest, O => Some (t, later :: rest)
  | task :: rest, S i =>
      match pop_turn i rest with
      | Some (t, rest') => Some (t, task :: rest')
      | None => None
      end
  end.

Definition step (p : Pick) (s : Loop) : option Loop :=
  match p with
  | Deliver =>
      match inbox s with
      | [] => None
      | (w, data) :: waiting =>
          match turns (fst (listener w data)) with
          | [] => None
          | first :: later =>
              Some (mkLoop waiting (tasks s ++ [later])
                      (log s ++ tag (length (tasks s)) first))
          end
      end
  | Resume id =>
      match pop_turn id (tasks s) with
      | None => None
      | Some (t, ts) => Some (mkLoop (inbox s) ts (log s ++ tag id t))
      end
  end.

Fixpoint run (picks : list Pick) (s : Loop) : option Loop :=
  match picks with
  | [] => Some s
  | p :: rest =>
      match step p s with
      | None => None
      | Some s' => run rest s'
      end
  end.

(** Run [id] to its end without letting anything else in. *)
Definition to_completion (id : nat) : list Pick := repeat (Resume id) 5.

(** Where in the log something first happens. *)
Fixpoint position (p : nat * Event -> bool) (l : list (nat * Event))
  : option nat :=
  match l with
  | [] => None
  | x :: rest => if p x then Some 0 else option_map S (position p rest)
  end.

Definition decode_of (id : nat) (x : nat * Event) : bool :=
  Nat.eqb (fst x) id && is_decode (snd x).

Definition post_of (id : nat) (x : nat * Event) : bool :=
  Nat.eqb (fst x) id && is_post (snd x).

(** In a piece of a run, a decode is the last thing that happens or is
    followed by a post and nothing else. *)
Fixpoint decode_closes (t : list Event) : Prop :=
  match t with
  | [] => True
  | EDecode _ _ :: rest => rest = [] \/ exists m, rest = [EPost m]
  | _ :: rest => decode_closes rest
  end.

(** Only the last of the turns a run still has to execute may decode. *)
Fixpoint closing_turns (ts : list (list Event)) : Prop :=
  match ts with
  | [] => True
  | t :: later =>
      match later with
      | [] => decode_closes t
      | _ :: _ => count is_decode t = 0 /\ closing_turns later
      end
  end.

(** What the log promises about every decode in it, given the runs still
    in flight: a decode of run [i] is directly followed by the post of
    run [i], or run [i] did nothing afterwards and has nothing left to
    do. *)
Definition settled_decodes
    (l : list (nat * Event)) (ts : list (list (list Event))) : Prop :=
  forall pre i instance audio post,
    l = pre ++ (i, EDecode instance audio) :: post ->
    (exists m post', post = (i, EPost m) :: post')
    \/ ((forall e, ~ In (i, e) post) /\ nth_error ts i = Some []).

(** What run [id] has done so far, read off the log. *)
Definition events_of (id : nat) (l : list (nat * Event)) : list Event :=
  map snd (filter (fun x => Nat.eqb (fst x) id) l).

(** A run without its [await] marks. *)
Definition visible (t : list Event) : list Event :=
  filter (fun e => match e with EAwait => false | _ => true end) t.

End EventLoop.

(* ================================================================== *)
(** ** Sample worlds                                                  *)
(* ================================================================== *)

Module Scenario.
Import Js Worker.

Definition ok_response (content : bytes) : Response :=
  mkResponse true 200 (mkPromise 2 (inr content)).

Definition not_found : Response :=
  mkResponse false 404 (mkPromise 2 (inr (list_byte_of_string "Not Found"))).

Definition network_error {A} (at_tick : nat) (what : string) : Promise A :=
  mkPromise at_tick (inl (TypeError what)).

(** Every location serves its own name as content; the engine builds and
    returns [payload] for whatever it is given. *)
Definition serving (payload : value) : World :=
  mkWorld
    (fun url => mkPromise 1 (inr (ok_response (list_byte_of_string url))))
    (mkPromise 0 (inr tt))
    (fun _ => inr (mkDecoder 0))
    (fun _ _ => inr "payload")
    (fun _ => inr payload).

(** [serving], except that fetching [bad] settles as [p]. *)
Definition with_fetch (bad : string) (p : Promise Response) (w : World)
  : World :=
  mkWorld
    (fun url => if String.eqb url bad then p else fetch w url)
    (init w) (Decoder_new w) (decode w) (JSON_parse w).

Definition segment (field : string) (t : string) : value :=
  VObj [(field, VObj [("text", VStr t)])].

Definition request (src : string) : value :=
  VObj [("audioSrc", VStr src)].

(** The engine recognises one segment with text [t]. *)
Definition transcribing (t : string) : World :=
  serving (VArr [segment "dr" t]).

(** The config location answers 404 with an error page. *)
Definition config_404 : World :=
  with_fetch "model/config.json" (mkPromise 1 (inr not_found)) (serving VNull).

(** The config location cannot be reached. *)
Definition config_down : World :=
  with_fetch "model/config.json" (network_error 1 "Failed to fetch")
    (serving VNull).

(** The object URL [blob:gone] no longer resolves. *)
Definition audio_gone : World :=
  with_fetch "blob:gone" (network_error 1 "Failed to fetch")
    (transcribing "test").

(** Two requests in flight together.  The audio of the first is slow to
    arrive: its run is waiting for it when the second run, whose audio is
    at hand, goes through to its end. *)
Definition two_requests : list Request :=
  [(transcribing "one", request "https://example.org/long.wav");
   (transcribing "two", request "blob:b")].

Definition overtaking : list EventLoop.Pick :=
  [EventLoop.Deliver; EventLoop.Deliver;
   EventLoop.Resume 0; EventLoop.Resume 0; EventLoop.Resume 0]
    ++ EventLoop.to_completion 1
    ++ [EventLoop.Resume 0; EventLoop.Resume 0].

Definition overtaken : EventLoop.Loop :=
  match EventLoop.run overtaking (EventLoop.start two_requests) with
  | Some s => s
  | None => EventLoop.start []
  end.

End Scenario.

(* ================================================================== *)
(** ** The surface: what [onMessage] and [handleDrop] do               *)
(* ================================================================== *)

Section SurfaceFacts.
Import Js App.
Import Worker (result_message).

Lemma join_of_strings (sep : string) (texts : list string) :
  join sep (map VStr texts) = inr (String.concat sep texts).
Proof.
  unfold join.
  assert (Hparts :
    map_throwing (fun x => if is_nullish x then inr EmptyString else ToString x)
      (map VStr texts) = inr texts).
  { induction texts as [| t texts IH]; cbn; [reflexivity |].
    now rewrite IH. }
  now rewrite Hparts.
Qed.

Lemma map_throwing_texts (segs : list value) (texts : list string) :
  Forall2 (fun seg t => segment_text seg = inr (VStr t)) segs texts ->
  map_throwing segment_text segs = inr (map VStr texts).
Proof.
  induction 1 as [| seg t segs texts Hseg _ IH]; cbn.
  - reflexivity.
  - now rewrite Hseg, IH.
Qed.

Lemma onMessage_complete (output : value) (s : Surface) :
  onMessage (result_message output) s =
  match array_map segment_text output with
  | inl e => (inl e, s)
  | inr texts =>
      match join " " texts with
      | inl e => (inl e, s)
      | inr joined => (inr tt, mkSurface (audioSrc s) joined (classList s))
      end
  end.
Proof.
  unfold onMessage, result_message, bind, lift. cbn.
  destruct (array_map segment_text output) as [e | texts]; [reflexivity |].
  now destruct (join " " texts).
Qed.

(** C4.  A complete result whose segments carry the texts [texts] sets
    the displayed transcript to those texts joined by one space, in
    order; two segments Hello, world give "Hello world", one segment Hi
    gives "Hi", and no segment gives the empty string without throwing. *)
Theorem transcript_joins_texts_with_space :
  (forall (segs : list value) (texts : list string) (s : Surface),
      Forall2 (fun seg t => segment_text seg = inr (VStr t)) segs texts ->
      onMessage (result_message (VArr segs)) s =
      (inr tt, mkSurface (audioSrc s) (String.concat " " texts) (classList s)))
  /\ (forall s,
         onMessage
           (result_message
              (VArr [Scenario.segment "dr" "Hello"; Scenario.segment "dr" "world"])) s
         = (inr tt, mkSurface (audioSrc s) "Hello world" (classList s)))
  /\ (forall s,
         onMessage (result_message (VArr [Scenario.segment "dr" "Hi"])) s
         = (inr tt, mkSurface (audioSrc s) "Hi" (classList s)))
  /\ (forall s,
         onMessage (result_message (VArr [])) s
         = (inr tt, mkSurface (audioSrc s) EmptyString (classList s))).
Proof.
  repeat split; intros; rewrite onMessage_complete; cbn; try reflexivity.
  rewrite (map_throwing_texts segs texts) by assumption.
  now rewrite join_of_strings.
Qed.

Lemma transcript_joins_texts_with_space_witness :
  onMessage
    (result_message
       (VArr [VObj [("start", VNum "0"); ("dr", VObj [("text", VStr "a b")])];
              VObj [("dr", VObj [("text", VStr "c")])]]))
    (initial None)
  = (inr tt, mkSurface EmptyString "a b c" None).
Proof.
  apply (proj1 transcript_joins_texts_with_space _ ["a b"; "c"] (initial None)).
  repeat constructor.
Defined.

Lemma onMessage_other_status (data : value) (s : Surface) :
  get "status" data <> inr (VStr "complete") ->
  snd (onMessage data s) = s.
Proof.
  intros Hst. unfold onMessage, bind, lift.
  destruct data; cbn in *; try reflexivity.
  destruct (assoc "status" props) as [st |]; cbn; try reflexivity.
  destruct st as [| | b | r | txt | items | ps]; cbn; try reflexivity.
  destruct (String.eqb_spec txt "complete") as [-> | _]; cbn.
  - now elim Hst.
  - reflexivity.
Qed.

Lemma status_is_complete_or_not (data : value) :
  get "status" data = inr (VStr "complete")
  \/ get "status" data <> inr (VStr "complete").
Proof.
  destruct data; cbn; try (right; discriminate).
  destruct (assoc "status" props) as [st |]; [| right; discriminate].
  destruct st as [| | b | r | txt | items | ps]; try (right; discriminate).
  destruct (String.eqb_spec txt "complete") as [-> | Hne].
  - now left.
  - right. congruence.
Qed.

(** C10.  A result message whose status is not the string "complete"
    leaves the surface state, and so the displayed text, as it was; if a
    message changes the displayed text, its status is "complete". *)
Theorem only_complete_updates_text :
  (forall (data : value) (s : Surface),
      get "status" data <> inr (VStr "complete") ->
      snd (onMessage data s) = s)
  /\ (forall (data : value) (s : Surface),
         text (snd (onMessage data s)) <> text s ->
         get "status" data = inr (VStr "complete")).
Proof.
  split.
  - exact onMessage_other_status.
  - intros data s Hchg.
    destruct (status_is_complete_or_not data) as [Hc | Hn]; [exact Hc |].
    rewrite (onMessage_other_status data s Hn) in Hchg. now elim Hchg.
Qed.

Lemma only_complete_updates_text_witness :
  snd (onMessage
         (VObj [("status", VStr "error"); ("error", VStr "AudioFetchError")])
         (mkSurface "blob:a" "earlier transcript" None))
  = mkSurface "blob:a" "earlier transcript" None.
Proof.
  apply (proj1 only_complete_updates_text); cbn; discriminate.
Defined.

Section Drop.
Variable File : Type.
Variable createObjectURL : File -> string.

(** C9.  A drop that carries files selects an object URL of the first
    file, whatever the uri-list holds; the uri-list URL is selected
    only when the drop carries no file and the URL is not empty; with
    neither, the selection stays.  The transcript is never touched. *)
Theorem drop_prefers_first_file :
  (forall (e : DragEvent File) (s : Surface) (f : File) (others : list File),
      files File e = f :: others ->
      audioSrc (snd (handleDrop File createObjectURL e s)) = createObjectURL f)
  /\ (forall (e : DragEvent File) (s : Surface),
         files File e = [] -> uri_list File e <> EmptyString ->
         audioSrc (snd (handleDrop File createObjectURL e s)) = uri_list File e)
  /\ (forall (e : DragEvent File) (s : Surface),
         files File e = [] -> uri_list File e = EmptyString ->
         audioSrc (snd (handleDrop File createObjectURL e s)) = audioSrc s)
  /\ (forall (e : DragEvent File) (s : Surface),
         fst (handleDrop File createObjectURL e s) = inr tt
         /\ text (snd (handleDrop File createObjectURL e s)) = text s).
Proof.
  unfold handleDrop, bind, classList_remove, setAudioSrc, ret.
  repeat split; intros; cbn.
  - now rewrite H.
  - rewrite H. destruct (uri_list File e); [now elim H0 | reflexivity].
  - now rewrite H, H0.
  - destruct (files File e), (uri_list File e); reflexivity.
  - destruct (files File e), (uri_list File e); reflexivity.
Qed.
End Drop.

Lemma drop_prefers_first_file_witness :
  audioSrc
    (snd (handleDrop string (fun name => "blob:" ++ name)%string
            (mkDrag string "https://example.org/a.wav" ["a.mp3"; "b.mp3"])
            (mkSurface "old" "t" (Some ["border-blue-700"]))))
  = "blob:a.mp3".
Proof.
  apply (proj1 (drop_prefers_first_file string (fun name => "blob:" ++ name)%string)
           _ _ "a.mp3" ["b.mp3"]).
  reflexivity.
Defined.

End SurfaceFacts.

(* ================================================================== *)
(** ** The asset loader                                               *)
(* ================================================================== *)

Section LoaderFacts.
Import Js Worker.
Variable w : World.

Lemma mapM_call_fetch (locations : list string) :
  mapM (call_fetch w) locations =
  (map EFetch locations, inr (map (fetch w) locations)).
Proof.
  induction locations as [| u rest IH]; cbn.
  - reflexivity.
  - rewrite IH. cbn. now rewrite app_nil_r.
Qed.

Lemma mapM_call_arrayBuffer (responses : list Response) :
  mapM call_arrayBuffer responses =
  (map EArrayBuffer responses, inr (map arrayBuffer responses)).
Proof.
  induction responses as [| r rest IH]; cbn.
  - reflexivity.
  - rewrite IH. cbn. now rewrite app_nil_r.
Qed.

(** [Promise.all] fulfils exactly when every input does, with the values
    in input order. *)
Lemma earliest_rejection_none {A} (ps : list (Promise A)) (vs : list A) :
  map outcome ps = map inr vs ->
  earliest_rejection ps = None /\ fulfilled_values ps = vs.
Proof.
  revert vs. induction ps as [| p ps IH]; intros [| v vs] Heq;
    cbn in *; try discriminate.
  - now split.
  - injection Heq as Hp Hps. destruct (IH vs Hps) as [Hnone Hvals].
    rewrite Hp, Hnone. split; [reflexivity |].
    unfold fulfilled_values in *. cbn. now rewrite Hvals.
Qed.

Lemma Promise_all_fulfils {A} (ps : list (Promise A)) (vs : list A) :
  map outcome ps = map inr vs ->
  outcome (Promise_all ps) = inr vs.
Proof.
  intros Heq. unfold Promise_all.
  destruct (earliest_rejection_none ps vs Heq) as [-> ->]. reflexivity.
Qed.

Lemma earliest_rejection_absent {A} (ps : list (Promise A)) :
  earliest_rejection ps = None ->
  forall q e, In q ps -> outcome q <> inl e.
Proof.
  induction ps as [| p ps IH]; cbn; intros Hnone q e Hin.
  - destruct Hin.
  - destruct (outcome p) as [e0 | a] eqn:Hp.
    + destruct (earliest_rejection ps) as [[t e1] |];
        [destruct (Nat.leb (tick p) t) |]; discriminate.
    + destruct Hin as [<- | Hin]; [congruence | now apply IH].
Qed.

Lemma earliest_rejection_found {A} (ps : list (Promise A)) (t : nat) (e : exn) :
  earliest_rejection ps = Some (t, e) ->
  (exists p, In p ps /\ outcome p = inl e /\ tick p = t)
  /\ (forall q e', In q ps -> outcome q = inl e' -> t <= tick q).
Proof.
  revert t e. induction ps as [| p ps IH]; cbn; intros t e Hsome.
  - discriminate.
  - destruct (outcome p) as [e0 | a] eqn:Hp.
    + destruct (earliest_rejection ps) as [[t1 e1] |] eqn:Hrest.
      * destruct (IH t1 e1 eq_refl) as [(p1 & Hin1 & Hout1 & Htick1) Hmin].
        destruct (Nat.leb_spec (tick p) t1) as [Hle | Hgt];
          injection Hsome as <- <-.
        -- split.
           ++ exists p. auto.
           ++ intros q e' [<- | Hq] Hout; [lia |].
              specialize (Hmin q e' Hq Hout). lia.
        -- split.
           ++ exists p1. auto.
           ++ intros q e' [<- | Hq] Hout; [lia |].
              exact (Hmin q e' Hq Hout).
      * injection Hsome as <- <-. split.
        -- exists p. auto.
        -- intros q e' [<- | Hq] Hout; [lia |].
           now elim (earliest_rejection_absent ps Hrest q e' Hq).
    + destruct (IH t e Hsome) as [(p1 & Hin1 & Hout1 & Htick1) Hmin]. split.
      * exists p1. auto.
      * intros q e' [<- | Hq] Hout; [congruence |].
        exact (Hmin q e' Hq Hout).
Qed.

(** When an input rejects, [Promise.all] rejects with the reason of an
    input that rejected no later than any other. *)
Lemma Promise_all_rejects {A} (ps : list (Promise A)) :
  (exists p e, In p ps /\ outcome p = inl e) ->
  exists p e,
    In p ps /\ outcome p = inl e
    /\ Promise_all ps = mkPromise (tick p) (inl e)
    /\ (forall q e', In q ps -> outcome q = inl e' -> tick p <= tick q).
Proof.
  intros (p0 & e0 & Hin0 & Hout0).
  destruct (earliest_rejection ps) as [[t e] |] eqn:Heq.
  - destruct (earliest_rejection_found ps t e Heq)
      as [(p & Hin & Hout & <-) Hmin].
    exists p, e. unfold Promise_all. rewrite Heq. auto.
  - now elim (earliest_rejection_absent ps Heq p0 e0 Hin0).
Qed.

(** The loader, step by step. *)
Lemma loadAssets_unfold (locations : list string) :
  loadAssets w locations =
  match outcome (Promise_all (map (fetch w) locations)) with
  | inl e => (map EFetch locations ++ [EAwait], inl e)
  | inr responses =>
      (map EFetch locations ++ EAwait :: map EArrayBuffer responses ++ [EAwait],
       match outcome (Promise_all (map arrayBuffer responses)) with
       | inl e => inl e
       | inr buffers => inr (map Uint8Array buffers)
       end)
  end.
Proof.
  unfold loadAssets. rewrite mapM_call_fetch. cbn.
  destruct (outcome (Promise_all (map (fetch w) locations)))
    as [e | responses]; cbn.
  - reflexivity.
  - rewrite mapM_call_arrayBuffer. cbn.
    destruct (outcome (Promise_all (map arrayBuffer responses)))
      as [e | buffers]; cbn.
    + reflexivity.
    + reflexivity.
Qed.

Lemma rejected_fetch_rejects_load (locations : list string) (u : string) (e0 : exn) :
  In u locations ->
  outcome (fetch w u) = inl e0 ->
  exists e, loadAssets w locations = (map EFetch locations ++ [EAwait], inl e).
Proof.
  intros Hin Hrej.
  destruct (Promise_all_rejects (map (fetch w) locations))
    as (p & e & _ & _ & Hall & _).
  { exists (fetch w u), e0. split; [now apply in_map | assumption]. }
  exists e. rewrite loadAssets_unfold, Hall. reflexivity.
Qed.

(** Every fetch is issued before the loader awaits anything. *)
Lemma loadAssets_issues_all_first (locations : list string) :
  exists rest,
    fst (loadAssets w locations) = map EFetch locations ++ EAwait :: rest.
Proof.
  rewrite loadAssets_unfold.
  destruct (outcome (Promise_all (map (fetch w) locations))); cbn; eauto.
Qed.

End LoaderFacts.

(* ================================================================== *)
(** ** One listener run                                               *)
(* ================================================================== *)

Section ListenerFacts.
Import Js Worker.

(** The arguments the listener builds the engine with, from the loaded
    buffers. *)
Lemma listener_unfold (w : World) (data : value) :
  listener w data =
  match loadAssets w model with
  | (t0, inl e) => (t0, inl e)
  | (t0, inr assets) =>
  match outcome (init w) with
  | inl e => (t0 ++ [EInit; EAwait], inl e)
  | inr _ =>
  let args := mkArgs (nth_error assets 0) (nth_error assets 1)
                     (nth_error assets 3) (nth_error assets 2)
                     false true true VNull VNull in
  match Decoder_new w args with
  | inl e => (t0 ++ [EInit; EAwait; ENew args], inl e)
  | inr instance =>
  match get "audioSrc" data with
  | inl e => (t0 ++ [EInit; EAwait; ENew args], inl e)
  | inr src =>
  match ToString src with
  | inl e => (t0 ++ [EInit; EAwait; ENew args; EAwait], inl e)
  | inr url =>
  match outcome (fetch w url) with
  | inl e => (t0 ++ [EInit; EAwait; ENew args; EFetch url; EAwait], inl e)
  | inr resp =>
  match outcome (arrayBuffer resp) with
  | inl e =>
      (t0 ++ [EInit; EAwait; ENew args; EFetch url; EAwait;
              EArrayBuffer resp; EAwait], inl e)
  | inr audio =>
  match decode w instance audio with
  | inl e =>
      (t0 ++ [EInit; EAwait; ENew args; EFetch url; EAwait;
              EArrayBuffer resp; EAwait; EDecode instance audio], inl e)
  | inr payload =>
  match JSON_parse w payload with
  | inl e =>
      (t0 ++ [EInit; EAwait; ENew args; EFetch url; EAwait;
              EArrayBuffer resp; EAwait; EDecode instance audio], inl e)
  | inr output =>
      (t0 ++ [EInit; EAwait; ENew args; EFetch url; EAwait;
              EArrayBuffer resp; EAwait; EDecode instance audio;
              EPost (result_message output)], inr tt)
  end end end end end end end end end.
Proof.
  unfold listener.
  destruct (loadAssets w model) as [t0 [e | assets]]; cbn; [reflexivity |].
  destruct (outcome (init w)) as [e | _u]; cbn; [reflexivity |].
  destruct (Decoder_new w _) as [e | instance]; cbn; [reflexivity |].
  destruct (get "audioSrc" data) as [e | src]; cbn; [reflexivity |].
  unfold fetch_value.
  destruct (ToString src) as [e | url]; cbn; [reflexivity |].
  destruct (outcome (fetch w url)) as [e | resp]; cbn; [reflexivity |].
  destruct (outcome (arrayBuffer resp)) as [e | audio]; cbn; [reflexivity |].
  unfold Uint8Array.
  destruct (decode w instance audio) as [e | payload]; cbn; [reflexivity |].
  destruct (JSON_parse w payload) as [e | output]; cbn; reflexivity.
Qed.

Lemma count_app (p : Event -> bool) (t1 t2 : list Event) :
  count p (t1 ++ t2) = count p t1 + count p t2.
Proof. unfold count. now rewrite filter_app, length_app. Qed.

Lemma posted_app (t1 t2 : list Event) :
  posted (t1 ++ t2) = posted t1 ++ posted t2.
Proof. unfold posted. now rewrite flat_map_app. Qed.

Lemma loader_trace_network (w : World) (locations : list string) :
  Forall (fun e => is_network e = true) (fst (loadAssets w locations)).
Proof.
  rewrite loadAssets_unfold.
  assert (Hf : forall l, Forall (fun e => is_network e = true) (map EFetch l))
    by (intros l; apply Forall_forall; intros e He;
        apply in_map_iff in He; destruct He as (? & <- & _); reflexivity).
  assert (Hb : forall l, Forall (fun e => is_network e = true) (map EArrayBuffer l))
    by (intros l; apply Forall_forall; intros e He;
        apply in_map_iff in He; destruct He as (? & <- & _); reflexivity).
  destruct (outcome (Promise_all (map (fetch w) locations))); cbn.
  - apply Forall_app. split; [apply Hf | repeat constructor].
  - apply Forall_app. split; [apply Hf |]. constructor; [reflexivity |].
    apply Forall_app. split; [apply Hb | repeat constructor].
Qed.

Lemma network_count (p : Event -> bool) (t : list Event) :
  (forall e, is_network e = true -> p e = false) ->
  Forall (fun e => is_network e = true) t ->
  count p t = 0.
Proof.
  intros Hp. unfold count. induction 1 as [| e t He _ IH]; cbn.
  - reflexivity.
  - now rewrite (Hp e He).
Qed.

Lemma network_no_new (t : list Event) :
  Forall (fun e => is_network e = true) t -> count is_new t = 0.
Proof.
  apply network_count. intros e; destruct e; (discriminate || reflexivity).
Qed.

Lemma network_no_decode (t : list Event) :
  Forall (fun e => is_network e = true) t -> count is_decode t = 0.
Proof.
  apply network_count. intros e; destruct e; (discriminate || reflexivity).
Qed.

Lemma network_posted (t : list Event) :
  Forall (fun e => is_network e = true) t -> posted t = [].
Proof.
  induction 1 as [| e t He _ IH]; cbn.
  - reflexivity.
  - destruct e; try discriminate; exact IH.
Qed.

End ListenerFacts.

Section LoaderClaims.
Import Js Worker.

(** C6.  For any list of locations the loader calls [fetch] on every
    location, in list order, before its first [await]; when every fetch and
    every body read fulfils, it then calls [arrayBuffer] on every response
    before its second [await], and yields exactly one buffer per location,
    the buffer at position [i] holding the content of location [i].  In the
    listener the four positions of [model] reach the constructor as
    weights, tokenizer, config and mel filters. *)
Theorem loadAssets_concurrent_in_order
    (w : World) (locations : list string) :
  (exists rest,
      fst (loadAssets w locations) = map EFetch locations ++ EAwait :: rest)
  /\ (forall (response : string -> Response) (content : string -> bytes),
         (forall u, In u locations ->
                    outcome (fetch w u) = inr (response u)
                    /\ outcome (arrayBuffer (response u)) = inr (content u)) ->
         loadAssets w locations =
         (map EFetch locations
            ++ EAwait :: map EArrayBuffer (map response locations) ++ [EAwait],
          inr (map content locations))
         /\ (forall i u, nth_error locations i = Some u ->
                         nth_error (map content locations) i = Some (content u))
         /\ (locations = model -> outcome (init w) = inr tt ->
             forall data, exists rest,
               fst (listener w data) =
               fst (loadAssets w model)
                 ++ [EInit; EAwait;
                     ENew (mkArgs
                             (Some (content "https://huggingface.co/openai/whisper-tiny/resolve/main/model.safetensors"))
                             (Some (content "model/tokenizer.json"))
                             (Some (content "model/mel_filters.safetensors"))
                             (Some (content "model/config.json"))
                             false true true VNull VNull)]
                 ++ rest)).
Proof.
  split.
  - apply loadAssets_issues_all_first.
  - intros response content Hall.
    assert (Hload :
      loadAssets w locations =
      (map EFetch locations
         ++ EAwait :: map EArrayBuffer (map response locations) ++ [EAwait],
       inr (map content locations))).
    { rewrite loadAssets_unfold.
      rewrite (Promise_all_fulfils (map (fetch w) locations)
                 (map response locations)).
      2:{ rewrite !map_map. apply map_ext_in. intros u Hu.
          now destruct (Hall u Hu). }
      rewrite (Promise_all_fulfils (map arrayBuffer (map response locations))
                 (map content locations)).
      2:{ rewrite !map_map. apply map_ext_in. intros u Hu.
          now destruct (Hall u Hu). }
      unfold Uint8Array. now rewrite map_id. }
    split; [exact Hload |]. split.
    + intros i u Hi. now rewrite nth_error_map, Hi.
    + intros -> Hinit data. rewrite listener_unfold, Hload, Hinit. cbn.
      repeat match goal with
             | |- context [match ?c with inl _ => _ | inr _ => _ end] =>
                 destruct c
             end; cbn; eexists; reflexivity.
Qed.

Lemma loadAssets_concurrent_in_order_witness :
  loadAssets (Scenario.serving VNull) ["a"; "b"] =
  (map EFetch ["a"; "b"]
     ++ EAwait
     :: map EArrayBuffer
          (map (fun u => Scenario.ok_response (list_byte_of_string u)) ["a"; "b"])
     ++ [EAwait],
   inr (map list_byte_of_string ["a"; "b"])).
Proof.
  apply (proj2 (loadAssets_concurrent_in_order (Scenario.serving VNull) ["a"; "b"])
           (fun u => Scenario.ok_response (list_byte_of_string u))
           list_byte_of_string).
  intros u _. split; reflexivity.
Defined.

(** C5, as the code has it.  When the fetch of one of the locations
    rejects, the whole load rejects right after the fetches were issued,
    with the reason of a fetch that rejected no later than any other; no
    buffer is produced, and in the listener no engine is constructed and
    nothing is posted.  The status of a response plays no part: when every
    fetch fulfils, with whatever [ok] flag and status code, and every body
    can be read, the load yields the bodies in order, error pages
    included, and the listener goes on to construct the engine from
    them. *)
Theorem rejected_fetch_fails_whole_load
    (w : World) (locations : list string) :
  (forall u e0,
      In u locations ->
      outcome (fetch w u) = inl e0 ->
      exists u' e,
        In u' locations
        /\ outcome (fetch w u') = inl e
        /\ (forall v e', In v locations -> outcome (fetch w v) = inl e' ->
                         tick (fetch w u') <= tick (fetch w v))
        /\ loadAssets w locations = (map EFetch locations ++ [EAwait], inl e)
        /\ (locations = model ->
            forall data,
              listener w data = (map EFetch model ++ [EAwait], inl e)))
  /\ (forall (ok_of : string -> bool) (status_of : string -> nat)
             (read_of : string -> Promise bytes) (content : string -> bytes),
         (forall u, In u locations ->
                    outcome (fetch w u)
                    = inr (mkResponse (ok_of u) (status_of u) (read_of u))
                    /\ outcome (read_of u) = inr (content u)) ->
         snd (loadAssets w locations) = inr (map content locations)
         /\ (locations = model -> outcome (init w) = inr tt ->
             forall data, count is_new (fst (listener w data)) = 1)).
Proof.
  split.
  - intros u e0 Hin Hrej.
    destruct (Promise_all_rejects (map (fetch w) locations))
      as (p & e & Hp & Hout & Hall & Hmin).
    { exists (fetch w u), e0. split; [now apply in_map | assumption]. }
    apply in_map_iff in Hp. destruct Hp as (u' & <- & Hu').
    exists u', e. repeat split; try assumption.
    + intros v e' Hv Hv'.
      apply (Hmin (fetch w v) e'); [now apply in_map | assumption].
    + rewrite loadAssets_unfold, Hall. reflexivity.
    + intros -> data. rewrite listener_unfold, loadAssets_unfold, Hall.
      reflexivity.
  - intros ok_of status_of read_of content Hall.
    assert (Hload : snd (loadAssets w locations) = inr (map content locations)).
    { rewrite loadAssets_unfold.
      rewrite (Promise_all_fulfils (map (fetch w) locations)
                 (map (fun u => mkResponse (ok_of u) (status_of u) (read_of u))
                      locations)).
      2:{ rewrite !map_map. apply map_ext_in. intros u Hu.
          now destruct (Hall u Hu). }
      cbn [snd].
      rewrite (Promise_all_fulfils _ (map content locations)).
      2:{ rewrite !map_map. apply map_ext_in. intros u Hu. cbn.
          now destruct (Hall u Hu). }
      unfold Uint8Array. now rewrite map_id. }
    split; [exact Hload |].
    intros -> Hinit data. rewrite listener_unfold.
    pose proof (loader_trace_network w model) as Hnet.
    destruct (loadAssets w model) as [t0 r0]. cbn [fst snd] in *. subst r0.
    rewrite Hinit. cbv zeta.
    repeat match goal with
           | |- context [match ?c with inl _ => _ | inr _ => _ end] =>
               destruct c
           end;
      cbn [fst]; rewrite count_app, (network_no_new _ Hnet); reflexivity.
Qed.

Lemma rejected_fetch_fails_whole_load_witness :
  (exists u' e,
      In u' model
      /\ outcome (fetch Scenario.config_down u') = inl e
      /\ loadAssets Scenario.config_down model
         = (map EFetch model ++ [EAwait], inl e))
  /\ snd (loadAssets Scenario.config_404 model)
     = inr (map (fun u => if String.eqb u "model/config.json"
                          then list_byte_of_string "Not Found"
                          else list_byte_of_string u) model).
Proof.
  split.
  - destruct (proj1 (rejected_fetch_fails_whole_load Scenario.config_down model)
                "model/config.json" (TypeError "Failed to fetch"))
      as (u' & e & H1 & H2 & _ & H3 & _).
    + cbn. auto.
    + reflexivity.
    + exists u', e. auto.
  - apply (proj2 (rejected_fetch_fails_whole_load Scenario.config_404 model)
             (fun u => negb (String.eqb u "model/config.json"))
             (fun u => if String.eqb u "model/config.json" then 404 else 200)
             (fun u => mkPromise 2
                         (inr (if String.eqb u "model/config.json"
                               then list_byte_of_string "Not Found"
                               else list_byte_of_string u)))).
    intros u Hu. cbn in Hu.
    destruct Hu as [<- | [<- | [<- | [<- | []]]]]; split; reflexivity.
Defined.

(** C5 as stated fails: a location answered with status 404 is not a
    failed fetch for the loader, which turns the error page into a buffer
    like any other; the bundle is complete and the engine is constructed
    from it. *)
Lemma http_error_status_still_loads :
  (exists r,
      outcome (fetch Scenario.config_404 "model/config.json") = inr r
      /\ ok r = false)
  /\ (exists bundle,
         snd (loadAssets Scenario.config_404 model) = inr bundle
         /\ length bundle = 4
         /\ nth_error bundle 2 = Some (list_byte_of_string "Not Found"))
  /\ count is_new (fst (listener Scenario.config_404 (Scenario.request "blob:a")))
     = 1.
Proof.
  split; [| split].
  - eexists. split; reflexivity.
  - eexists. repeat split; reflexivity.
  - reflexivity.
Qed.

End LoaderClaims.

(* ================================================================== *)
(** ** Requests, one after the other                                  *)
(* ================================================================== *)

Section RunClaims.
Import Js Worker.

Lemma loader_prefix (w : World) (data : value) :
  exists rest, fst (listener w data) = map EFetch model ++ EAwait :: rest.
Proof.
  rewrite listener_unfold.
  destruct (loadAssets_issues_all_first w model) as [rest0 Hpre].
  destruct (loadAssets w model) as [t0 r0]. cbn [fst] in Hpre. subst t0.
  cbv zeta.
  repeat match goal with
         | |- context [match ?c with inl _ => _ | inr _ => _ end] => destruct c
         end; cbn [fst];
    rewrite <- ?app_assoc; cbn [app]; eexists; reflexivity.
Qed.

(** Splits a goal about [listener w data] into the nine ways a run can
    go; [t0] is the loader's part of the trace. *)
Ltac run_cases w data :=
  rewrite ?(listener_unfold w data);
  let Hnet := fresh "Hnet" in
  pose proof (loader_trace_network w model) as Hnet;
  let t0 := fresh "t0" in
  let r0 := fresh "r0" in
  destruct (loadAssets w model) as [t0 r0] eqn:?; cbn [fst] in Hnet;
  destruct r0; cbv zeta;
  repeat match goal with
         | |- context [match ?c with inl _ => _ | inr _ => _ end] =>
             destruct c eqn:?
         end;
  cbn [fst snd];
  rewrite ?count_app, ?posted_app, ?(network_posted _ Hnet),
    ?(network_no_new _ Hnet), ?(network_no_decode _ Hnet);
  cbn.

Lemma in_after_network (t0 l : list Event) (e : Event) :
  Forall (fun x => is_network x = true) t0 ->
  is_network e = false ->
  In e (t0 ++ l) -> In e l.
Proof.
  intros Hnet He Hin. apply in_app_or in Hin. destruct Hin as [Hin | Hin];
    [| exact Hin].
  rewrite Forall_forall in Hnet. specialize (Hnet e Hin). congruence.
Qed.

(** C2, as the code has it.  The listener has no handler for failures.
    Step by step: when an asset fetch or an asset body read rejects, the
    load rejects with such a reason; and whichever of load, wasm
    initialisation, engine construction, reading [event.data.audioSrc],
    turning it into a location, the audio fetch, the audio body read,
    [decode] and [JSON.parse] is the first to fail, the run ends rejected
    with exactly that failure and has posted nothing.  Only when every
    one of them succeeds does the run complete, and then it has posted one
    message, the complete result carrying the parsed payload; no message
    of another status is ever posted. *)
Theorem failure_rejects_and_posts_nothing (w : World) (data : value) :
  (forall u e,
      In u model -> outcome (fetch w u) = inl e ->
      exists u' e',
        In u' model /\ outcome (fetch w u') = inl e'
        /\ snd (loadAssets w model) = inl e')
  /\ (forall responses r e,
         map outcome (map (fetch w) model) = map inr responses ->
         In r responses -> outcome (arrayBuffer r) = inl e ->
         exists r' e',
           In r' responses /\ outcome (arrayBuffer r') = inl e'
           /\ snd (loadAssets w model) = inl e')
  /\ (forall e,
         snd (loadAssets w model) = inl e ->
         ends_rejected (listener w data) e)
  /\ (forall assets,
         snd (loadAssets w model) = inr assets ->
       (forall e, outcome (init w) = inl e -> ends_rejected (listener w data) e)
       /\ (outcome (init w) = inr tt ->
       (forall e,
           Decoder_new w
             (mkArgs (nth_error assets 0) (nth_error assets 1)
                     (nth_error assets 3) (nth_error assets 2)
                     false true true VNull VNull) = inl e ->
           ends_rejected (listener w data) e)
       /\ (forall instance,
              Decoder_new w
                (mkArgs (nth_error assets 0) (nth_error assets 1)
                        (nth_error assets 3) (nth_error assets 2)
                        false true true VNull VNull) = inr instance ->
       (forall e, get "audioSrc" data = inl e ->
                  ends_rejected (listener w data) e)
       /\ (forall src, get "audioSrc" data = inr src ->
       (forall e, ToString src = inl e -> ends_rejected (listener w data) e)
       /\ (forall url, ToString src = inr url ->
       (forall e, outcome (fetch w url) = inl e ->
                  ends_rejected (listener w data) e)
       /\ (forall resp, outcome (fetch w url) = inr resp ->
       (forall e, outcome (arrayBuffer resp) = inl e ->
                  ends_rejected (listener w data) e)
       /\ (forall audio, outcome (arrayBuffer resp) = inr audio ->
       (forall e, decode w instance audio = inl e ->
                  ends_rejected (listener w data) e)
       /\ (forall payload, decode w instance audio = inr payload ->
       (forall e, JSON_parse w payload = inl e ->
                  ends_rejected (listener w data) e)
       /\ (forall output, JSON_parse w payload = inr output ->
                          ends_posting (listener w data) output)))))))))
  /\ (forall m, In m (posted (fst (listener w data))) ->
                get "status" m = inr (VStr "complete")).
Proof.
  repeat apply conj.
  - intros u e Hu Hrej.
    destruct (Promise_all_rejects (map (fetch w) model))
      as (p & e' & Hp & Hout & Hall & _).
    { exists (fetch w u), e. split; [now apply in_map | assumption]. }
    apply in_map_iff in Hp. destruct Hp as (u' & <- & Hu').
    exists u', e'. repeat split; try assumption.
    rewrite loadAssets_unfold, Hall. reflexivity.
  - intros responses r e Hfetch Hr Hrej.
    destruct (Promise_all_rejects (map arrayBuffer responses))
      as (p & e' & Hp & Hout & Hall & _).
    { exists (arrayBuffer r), e. split; [now apply in_map | assumption]. }
    apply in_map_iff in Hp. destruct Hp as (r' & <- & Hr').
    exists r', e'. repeat split; try assumption.
    rewrite loadAssets_unfold, (Promise_all_fulfils _ _ Hfetch), Hall.
    reflexivity.
  - intros e Hload. unfold ends_rejected. rewrite listener_unfold.
    pose proof (loader_trace_network w model) as Hnet.
    destruct (loadAssets w model) as [t0 r0]. cbn [fst snd] in *. subst r0.
    split; [reflexivity | now apply network_posted].
  - intros assets Hload. unfold ends_rejected, ends_posting.
    rewrite listener_unfold.
    pose proof (loader_trace_network w model) as Hnet.
    destruct (loadAssets w model) as [t0 r0]. cbn [fst snd] in *. subst r0.
    repeat match goal with
           | |- _ /\ _ => split
           | |- forall _, _ = _ -> _ =>
               let H := fresh "Hstep" in
               intros ? H; rewrite H; cbv beta iota zeta
           | |- _ = _ -> _ =>
               let H := fresh "Hstep" in
               intros H; rewrite H; cbv beta iota zeta
           end;
      cbn [fst snd]; rewrite ?posted_app, ?(network_posted _ Hnet);
      reflexivity.
  - run_cases w data; intros m Hm; try (now destruct Hm).
    destruct Hm as [<- | []]. reflexivity.
Qed.

Lemma failure_rejects_and_posts_nothing_witness :
  ends_rejected
    (listener Scenario.audio_gone (Scenario.request "blob:gone"))
    (TypeError "Failed to fetch").
Proof.
  destruct (failure_rejects_and_posts_nothing
              Scenario.audio_gone (Scenario.request "blob:gone"))
    as (_ & _ & _ & Hsteps & _).
  destruct (Hsteps _ eq_refl) as [_ Hinit].
  destruct (Hinit eq_refl) as [_ Hnew].
  destruct (Hnew _ eq_refl) as [_ Hsrc].
  destruct (Hsrc _ eq_refl) as [_ Hurl].
  destruct (Hurl _ eq_refl) as [Hfetch _].
  apply Hfetch. reflexivity.
Defined.

(** C2 as stated fails: when the audio fetch rejects, the run ends with
    that rejection unhandled and no result message is posted. *)
Lemma audio_fetch_failure_is_silent :
  snd (listener Scenario.audio_gone (Scenario.request "blob:gone"))
  = inl (TypeError "Failed to fetch")
  /\ posted (fst (listener Scenario.audio_gone (Scenario.request "blob:gone")))
     = [].
Proof. split; reflexivity. Qed.

Lemma constructs_at_most_once (w : World) (data : value) :
  count is_new (fst (listener w data)) <= 1
  /\ (snd (listener w data) = inr tt -> count is_new (fst (listener w data)) = 1).
Proof.
  split.
  - run_cases w data; lia.
  - run_cases w data; intros; (reflexivity || discriminate).
Qed.

Lemma constructs_iff_initialised (w : World) (data : value) :
  count is_new (fst (listener w data)) = 1
  <-> (exists assets, snd (loadAssets w model) = inr assets)
      /\ outcome (init w) = inr tt.
Proof.
  rewrite listener_unfold.
  pose proof (loader_trace_network w model) as Hnet.
  destruct (loadAssets w model) as [t0 [e | assets]]; cbn [fst snd] in *.
  - rewrite (network_no_new _ Hnet). split; [discriminate |].
    intros [[assets H] _]. discriminate.
  - destruct (outcome (init w)) as [e | []].
    + cbn [fst]. rewrite count_app, (network_no_new _ Hnet). cbn.
      split; [discriminate |]. intros [_ H]. discriminate.
    + cbv zeta. split; [eauto |]. intros _.
      repeat match goal with
             | |- context [match ?c with inl _ => _ | inr _ => _ end] =>
                 destruct c
             end;
        cbn [fst]; rewrite count_app, (network_no_new _ Hnet); reflexivity.
Qed.

Lemma decodes_on_own_engine
    (w : World) (data : value) (instance : Decoder) (audio : bytes) :
  In (EDecode instance audio) (fst (listener w data)) ->
  exists args,
    In (ENew args) (fst (listener w data))
    /\ Decoder_new w args = inr instance.
Proof.
  rewrite listener_unfold.
  pose proof (loader_trace_network w model) as Hnet.
  destruct (loadAssets w model) as [t0 [e | assets]]; cbn [fst] in *.
  - intros Hin. rewrite Forall_forall in Hnet. specialize (Hnet _ Hin).
    discriminate.
  - cbv zeta;
      repeat match goal with
             | |- context [match ?c with inl _ => _ | inr _ => _ end] =>
                 destruct c eqn:?
             end;
      cbn [fst]; intros Hin;
      apply (in_after_network t0 _ (EDecode instance audio) Hnet eq_refl) in Hin;
      cbn in Hin;
      repeat match goal with
             | H : _ \/ _ |- _ => destruct H
             end;
      try discriminate; try contradiction;
      match goal with
      | H : EDecode _ _ = EDecode _ _ |- _ => injection H as <- <-
      end;
      eexists; (split; [apply in_or_app; right; cbn; tauto | eassumption]).
Qed.

(** C1, as the code has it.  The listener keeps nothing between messages.
    Of N requests handled one after the other, the run of each is the
    listener run of that request alone; it begins by fetching the four
    assets again; it constructs an engine exactly when its own asset load
    and wasm initialisation succeed, once, and otherwise not at all; and
    every [decode] it calls is called on the engine that its own
    construction returned.  So N successful requests construct N engines,
    and no engine serves a later request. *)
Theorem every_request_loads_and_constructs (reqs : list Request) :
  length (serve reqs) = length reqs
  /\ (forall i w data,
         nth_error reqs i = Some (w, data) ->
         nth_error (serve reqs) i = Some (listener w data)
         /\ (exists rest,
                fst (listener w data) = map EFetch model ++ EAwait :: rest)
         /\ count is_new (fst (listener w data)) <= 1
         /\ (count is_new (fst (listener w data)) = 1
             <-> (exists assets, snd (loadAssets w model) = inr assets)
                 /\ outcome (init w) = inr tt)
         /\ (snd (listener w data) = inr tt ->
             count is_new (fst (listener w data)) = 1)
         /\ (forall instance audio,
                In (EDecode instance audio) (fst (listener w data)) ->
                exists args,
                  In (ENew args) (fst (listener w data))
                  /\ Decoder_new w args = inr instance))
  /\ (Forall (fun run => snd run = inr tt) (serve reqs) ->
      list_sum (map (fun run => count is_new (fst run)) (serve reqs))
      = length reqs).
Proof.
  unfold serve. split; [apply length_map |]. split.
  - intros i w data Hi. repeat apply conj.
    + rewrite nth_error_map.
      change Request with (World * value)%type in *. now rewrite Hi.
    + apply loader_prefix.
    + apply constructs_at_most_once.
    + apply constructs_iff_initialised.
    + apply constructs_iff_initialised.
    + apply constructs_at_most_once.
    + apply decodes_on_own_engine.
  - induction reqs as [| [w data] reqs IH];
      cbn [map list_sum length fst snd]; intros Hall.
    + reflexivity.
    + inversion Hall as [| run runs Hrun Hruns]; subst.
      rewrite (proj2 (constructs_at_most_once w data) Hrun).
      unfold list_sum. cbn [fold_right Nat.add]. f_equal. exact (IH Hruns).
Qed.

Lemma every_request_loads_and_constructs_witness :
  list_sum
    (map (fun run => count is_new (fst run))
       (serve [(Scenario.transcribing "one", Scenario.request "blob:a");
               (Scenario.transcribing "two", Scenario.request "blob:b");
               (Scenario.transcribing "three", Scenario.request "blob:c")]))
  = 3
  /\ exists args,
       In (ENew args)
         (fst (listener (Scenario.transcribing "two") (Scenario.request "blob:b")))
       /\ Decoder_new (Scenario.transcribing "two") args = inr (mkDecoder 0).
Proof.
  destruct (every_request_loads_and_constructs
              [(Scenario.transcribing "one", Scenario.request "blob:a");
               (Scenario.transcribing "two", Scenario.request "blob:b");
               (Scenario.transcribing "three", Scenario.request "blob:c")])
    as (_ & Heach & Hsum).
  split.
  - apply Hsum. repeat constructor.
  - destruct (Heach 1 _ _ eq_refl) as (_ & _ & _ & _ & _ & Hown).
    apply (Hown (mkDecoder 0) (list_byte_of_string "blob:b")).
    cbn. tauto.
Defined.

(** C1 as stated fails: the second of two requests fetches the four
    assets and constructs an engine again. *)
Lemma second_request_loads_again :
  exists run1 run2,
    serve [(Scenario.transcribing "one", Scenario.request "blob:a");
           (Scenario.transcribing "two", Scenario.request "blob:b")]
    = [run1; run2]
    /\ firstn 4 (fst run2) = map EFetch model
    /\ count is_new (fst run1) = 1
    /\ count is_new (fst run2) = 1.
Proof. do 2 eexists. repeat split; reflexivity. Qed.

Lemma ToString_converts (v : value) (text : string) :
  ToString v = inr text -> text = to_string v.
Proof.
  unfold ToString. destruct (unprintable v); [discriminate |].
  now intros H; injection H as <-.
Qed.

(** C7, as the code has it.  A request whose audio fetch rejects ends
    rejected and posts nothing; nothing survives it, and a following
    request that succeeds does so after fetching the four assets again and
    constructing an engine of its own. *)
Theorem audio_rejection_then_fresh_run
    (w1 w2 : World) (d1 d2 src : value) (e : exn) :
  get "audioSrc" d1 = inr src ->
  outcome (fetch w1 (to_string src)) = inl e ->
  snd (listener w2 d2) = inr tt ->
  exists run1 run2,
    serve [(w1, d1); (w2, d2)] = [run1; run2]
    /\ (exists e', snd run1 = inl e')
    /\ posted (fst run1) = []
    /\ (exists output, posted (fst run2) = [result_message output])
    /\ (exists rest, fst run2 = map EFetch model ++ EAwait :: rest)
    /\ count is_new (fst run2) = 1.
Proof.
  intros Hsrc Hrej Hok.
  exists (listener w1 d1), (listener w2 d2). split; [reflexivity |].
  assert (Hfail : exists e', snd (listener w1 d1) = inl e').
  { run_cases w1 d1; eauto.
    match goal with
    | H : ToString _ = inr _ |- _ => apply ToString_converts in H
    end.
    congruence. }
  split; [exact Hfail |]. split.
  - destruct Hfail as [e' He']. revert He'.
    run_cases w1 d1; intros; (reflexivity || discriminate).
  - split; [| split].
    + revert Hok. run_cases w2 d2; intros; try discriminate.
      eexists; reflexivity.
    + apply loader_prefix.
    + now apply constructs_at_most_once.
Qed.

Lemma audio_rejection_then_fresh_run_witness :
  exists run1 run2,
    serve [(Scenario.audio_gone, Scenario.request "blob:gone");
           (Scenario.transcribing "test", Scenario.request "blob:a")]
    = [run1; run2]
    /\ (exists e', snd run1 = inl e')
    /\ posted (fst run1) = []
    /\ (exists output, posted (fst run2) = [result_message output])
    /\ (exists rest, fst run2 = map EFetch model ++ EAwait :: rest)
    /\ count is_new (fst run2) = 1.
Proof.
  apply (audio_rejection_then_fresh_run
           Scenario.audio_gone (Scenario.transcribing "test")
           (Scenario.request "blob:gone") (Scenario.request "blob:a")
           (VStr "blob:gone") (TypeError "Failed to fetch"));
    reflexivity.
Defined.

(** C7 as stated fails: the request whose audio fetch rejects delivers no
    result at all, and the successful request after it fetches every
    model asset once more and constructs a second engine. *)
Lemma rejected_audio_no_result_then_refetch :
  exists run1 run2,
    serve [(Scenario.audio_gone, Scenario.request "blob:gone");
           (Scenario.transcribing "test", Scenario.request "blob:a")]
    = [run1; run2]
    /\ posted (fst run1) = []
    /\ count is_new (fst run1) = 1
    /\ snd run2 = inr tt
    /\ map (fun u => count (is_fetch_of u) (fst run2)) model = [1; 1; 1; 1]
    /\ count is_new (fst run2) = 1.
Proof. do 2 eexists. repeat split; reflexivity. Qed.

(** C3, as the code has it.  When a run succeeds and the engine's payload
    parses to an array whose entries carry their text under [dr], the
    single message posted has status "complete" and the surface shows the
    texts joined by a space; for the payload [{dr:{text:"test"}}] that is
    "test". *)
Theorem complete_payload_shows_dr_text
    (w : World) (data : value) (segs : list value) (texts : list string)
    (s : App.Surface) :
  snd (listener w data) = inr tt ->
  (forall instance audio payload,
      decode w instance audio = inr payload ->
      JSON_parse w payload = inr (VArr segs)) ->
  Forall2 (fun seg t => App.segment_text seg = inr (VStr t)) segs texts ->
  exists message,
    posted (fst (listener w data)) = [message]
    /\ get "status" message = inr (VStr "complete")
    /\ App.onMessage message s
       = (inr tt,
          App.mkSurface (App.audioSrc s) (String.concat " " texts)
            (App.classList s)).
Proof.
  intros Hok Hpayload Htexts.
  exists (result_message (VArr segs)). split; [| split].
  - revert Hok. run_cases w data; intros; try discriminate.
    match goal with
    | Hd : decode w _ _ = inr ?p, Hp : JSON_parse w ?p = inr _ |- _ =>
        rewrite (Hpayload _ _ _ Hd) in Hp; injection Hp as <-
    end.
    reflexivity.
  - reflexivity.
  - rewrite onMessage_complete. cbn.
    rewrite (map_throwing_texts segs texts Htexts).
    now rewrite join_of_strings.
Qed.

Lemma complete_payload_shows_dr_text_witness :
  exists message,
    posted (fst (listener (Scenario.transcribing "test")
                   (Scenario.request "blob:a"))) = [message]
    /\ get "status" message = inr (VStr "complete")
    /\ App.onMessage message (App.initial None)
       = (inr tt, App.mkSurface EmptyString "test" None).
Proof.
  apply (complete_payload_shows_dr_text
           (Scenario.transcribing "test") (Scenario.request "blob:a")
           [Scenario.segment "dr" "test"] ["test"] (App.initial None)).
  - reflexivity.
  - reflexivity.
  - repeat constructor.
Defined.

(** C3 as stated fails: for the payload [{result:{text:"test"}}] the
    worker posts a complete result, but [onMessage] reads [dr], finds
    [undefined], throws on [.text], and the displayed text stays empty. *)
Lemma result_field_is_not_read :
  snd (listener (Scenario.serving (VArr [Scenario.segment "result" "test"]))
         (Scenario.request "blob:a")) = inr tt
  /\ posted (fst (listener
                   (Scenario.serving (VArr [Scenario.segment "result" "test"]))
                   (Scenario.request "blob:a")))
     = [result_message (VArr [Scenario.segment "result" "test"])]
  /\ App.onMessage
       (result_message (VArr [Scenario.segment "result" "test"]))
       (App.initial None)
     = (inl (TypeError "Cannot read properties of undefined"),
        App.initial None)
  /\ App.text (App.initial None) <> "test".
Proof. repeat split; try reflexivity. discriminate. Qed.

End RunClaims.

(* ================================================================== *)
(** ** Requests in flight together                                    *)
(* ================================================================== *)

Section LoopFacts.
Import Js Worker EventLoop.

Lemma decode_closes_after_network (t0 t : list Event) :
  Forall (fun e => is_network e = true) t0 ->
  decode_closes t -> decode_closes (t0 ++ t).
Proof.
  induction 1 as [| e t0 He _ IH]; intros Ht; cbn.
  - exact Ht.
  - destruct e; try discriminate; now apply IH.
Qed.

Lemma listener_decode_closes (w : World) (data : value) :
  decode_closes (fst (listener w data)).
Proof.
  rewrite listener_unfold.
  pose proof (loader_trace_network w model) as Hnet.
  destruct (loadAssets w model) as [t0 r0]. cbn [fst] in Hnet.
  destruct r0; cbv zeta;
    repeat match goal with
           | |- context [match ?c with inl _ => _ | inr _ => _ end] =>
               destruct c
           end;
    cbn [fst];
    try (apply decode_closes_after_network; [exact Hnet |]); cbn; eauto.
  rewrite <- (app_nil_r t0). apply decode_closes_after_network; cbn; auto.
Qed.

Lemma decode_closes_split (a b : list Event) (instance : Decoder) (audio : bytes) :
  decode_closes (a ++ EDecode instance audio :: b) ->
  b = [] \/ exists m, b = [EPost m].
Proof.
  induction a as [| e a IH]; cbn.
  - trivial.
  - destruct e; try exact IH.
    intros [Hnil | [m Hm]].
    + now destruct a.
    + destruct a as [| ? [| ? ?]]; discriminate.
Qed.

Lemma decode_free_split (a b : list Event) (instance : Decoder) (audio : bytes) :
  count is_decode (a ++ EDecode instance audio :: b) <> 0.
Proof.
  unfold count. rewrite filter_app, length_app. cbn. lia.
Qed.

Lemma turns_closing (t : list Event) :
  decode_closes t -> closing_turns (turns t).
Proof.
  induction t as [| e t IH]; cbn [turns]; intros Ht.
  - exact I.
  - assert (Hne : turns t <> []) by (clear; destruct t as [| [] ?]; cbn;
      try discriminate; destruct (turns t); discriminate).
    destruct e; cbn [decode_closes] in Ht;
      try (specialize (IH Ht); destruct (turns t) as [| cur later];
           [now elim Hne |]; cbn [closing_turns] in *;
           destruct later; [exact IH |];
           destruct IH as [Hfree Hlater]; split; [exact Hfree | exact Hlater]).
    + destruct Ht as [-> | [m ->]]; cbn; eauto.
    + specialize (IH Ht). cbn [closing_turns].
      destruct (turns t) as [| cur later]; [now elim Hne |].
      split; [reflexivity | exact IH].
Qed.

Lemma closing_turns_tail (t : list Event) (later : list (list Event)) :
  closing_turns (t :: later) -> closing_turns later.
Proof.
  destruct later as [| t1 l1].
  - intros _. exact I.
  - intros [_ H]. exact H.
Qed.

(** A turn that decodes is the last turn of its run. *)
Lemma closing_turns_decoding_head
    (a b : list Event) (instance : Decoder) (audio : bytes)
    (later : list (list Event)) :
  closing_turns ((a ++ EDecode instance audio :: b) :: later) ->
  later = [] /\ (b = [] \/ exists m, b = [EPost m]).
Proof.
  destruct later as [| t1 l1].
  - intros H. split; [reflexivity |]. eapply decode_closes_split. exact H.
  - intros [H _]. now elim (decode_free_split a b instance audio).
Qed.

Lemma pop_turn_spec (id : nat) (ts ts' : list (list (list Event)))
    (t : list Event) :
  pop_turn id ts = Some (t, ts') ->
  exists later,
    nth_error ts id = Some (t :: later)
    /\ nth_error ts' id = Some later
    /\ (forall j, j <> id -> nth_error ts' j = nth_error ts j)
    /\ (Forall closing_turns ts -> Forall closing_turns ts').
Proof.
  revert id ts' t. induction ts as [| task rest IH]; intros id ts' t Hpop.
  - destruct id; discriminate.
  - destruct id as [| i].
    + destruct task as [| t0 later]; [discriminate |].
      injection Hpop as <- <-. exists later. repeat split.
      * intros [| j] Hj; [now elim Hj | reflexivity].
      * intros Hall. inversion Hall as [| ? ? Ht Hrest]; subst.
        constructor; [| assumption]. eapply closing_turns_tail; eassumption.
    + cbn in Hpop.
      destruct (pop_turn i rest) as [[t1 rest'] |] eqn:Hrec;
        [| destruct task; discriminate].
      assert (Heq : t1 = t /\ task :: rest' = ts')
        by (destruct task; injection Hpop as <- <-; auto).
      destruct Heq as [<- <-].
      destruct (IH i rest' t1 Hrec) as (later & Hn & Hn' & Hother & Hall).
      exists later. repeat split; try assumption.
      * intros [| j] Hj; [reflexivity |]. cbn. apply Hother. congruence.
      * intros H. inversion H; subst. constructor; auto.
Qed.

Lemma tag_other (i id : nat) (t : list Event) (e : Event) :
  i <> id -> ~ In (i, e) (tag id t).
Proof.
  intros Hne Hin. apply in_map_iff in Hin.
  destruct Hin as (? & Heq & _). congruence.
Qed.

(** Executing the next turn [t] of run [id], whose remaining turns become
    [later], keeps the promise. *)
Lemma settled_decodes_extend
    (l : list (nat * Event)) (ts ts' : list (list (list Event)))
    (id : nat) (t : list Event) (later : list (list Event)) :
  settled_decodes l ts ->
  closing_turns (t :: later) ->
  nth_error ts id <> Some [] ->
  nth_error ts' id = Some later ->
  (forall j, j <> id -> nth_error ts j = Some [] -> nth_error ts' j = Some []) ->
  settled_decodes (l ++ tag id t) ts'.
Proof.
  intros Hold Hclosing Hbusy Hid Hother pre i instance audio post Hsplit.
  apply app_eq_app in Hsplit. destruct Hsplit as [mid [[Hl Hx] | [Hpre Hchunk]]].
  - destruct mid as [| x mid'].
    + (* the decode opens the new turn *)
      cbn in Hx. symmetry in Hx. unfold tag in Hx.
      apply map_eq_cons in Hx. destruct Hx as (e & b & -> & Hhd & <-).
      injection Hhd as <- ->.
      destruct (closing_turns_decoding_head [] b instance audio later Hclosing)
        as [-> [-> | [m ->]]].
      * right. split; [intros e [] | exact Hid].
      * left. now exists m, [].
    + (* the decode is older *)
      injection Hx as <- ->. subst l.
      destruct (Hold pre i instance audio mid' eq_refl)
        as [(m & post' & ->) | [Hquiet Hdone]].
      * left. exists m, (post' ++ tag id t). reflexivity.
      * assert (Hne : i <> id) by (intros ->; contradiction).
        right. split.
        -- intros e Hin. apply in_app_or in Hin. destruct Hin as [Hin | Hin].
           ++ exact (Hquiet e Hin).
           ++ exact (tag_other i id t e Hne Hin).
        -- now apply Hother.
  - (* the decode is inside the new turn *)
    unfold tag in Hchunk. apply map_eq_app in Hchunk.
    destruct Hchunk as (a & rest & -> & _ & Hrest).
    apply map_eq_cons in Hrest. destruct Hrest as (e & b & -> & Hhd & <-).
    injection Hhd as <- ->.
    destruct (closing_turns_decoding_head a b instance audio later Hclosing)
      as [-> [-> | [m ->]]].
    + right. split; [intros e [] | exact Hid].
    + left. now exists m, [].
Qed.

Lemma step_keeps_settled (p : Pick) (s s' : Loop) :
  step p s = Some s' ->
  Forall closing_turns (tasks s) /\ settled_decodes (log s) (tasks s) ->
  Forall closing_turns (tasks s') /\ settled_decodes (log s') (tasks s').
Proof.
  intros Hstep [Hall Hlog]. destruct p as [| id]; cbn in Hstep.
  - destruct (inbox s) as [| [w data] waiting]; [discriminate |].
    pose proof (turns_closing _ (listener_decode_closes w data)) as Hclosing.
    destruct (turns (fst (listener w data))) as [| first later];
      [discriminate |].
    injection Hstep as <-. cbn [tasks log]. split.
    + apply Forall_app. split; [exact Hall |].
      constructor; [| constructor]. eapply closing_turns_tail; eassumption.
    + apply (settled_decodes_extend (log s) (tasks s) _ _ first later);
        try assumption.
      * rewrite (proj2 (nth_error_None (tasks s) _) (le_n _)). discriminate.
      * rewrite nth_error_app2 by apply le_n. now rewrite Nat.sub_diag.
      * intros j _ Hj. rewrite nth_error_app1; [exact Hj |].
        apply nth_error_Some. congruence.
  - destruct (pop_turn id (tasks s)) as [[t ts'] |] eqn:Hpop; [| discriminate].
    injection Hstep as <-. cbn [tasks log].
    destruct (pop_turn_spec id (tasks s) ts' t Hpop)
      as (later & Hn & Hn' & Hother & Hkeep).
    split; [now apply Hkeep |].
    apply (settled_decodes_extend (log s) (tasks s) _ _ t later);
      try assumption.
    + rewrite Forall_forall in Hall. apply Hall.
      eapply nth_error_In; eassumption.
    + rewrite Hn. discriminate.
    + intros j Hj Hdone. now rewrite (Hother j Hj).
Qed.

Lemma run_keeps_settled (picks : list Pick) (s s' : Loop) :
  run picks s = Some s' ->
  Forall closing_turns (tasks s) /\ settled_decodes (log s) (tasks s) ->
  Forall closing_turns (tasks s') /\ settled_decodes (log s') (tasks s').
Proof.
  revert s. induction picks as [| p picks IH]; cbn; intros s Hrun Hinv.
  - now injection Hrun as <-.
  - destruct (step p s) as [s1 |] eqn:Hstep; [| discriminate].
    apply (IH s1 Hrun). exact (step_keeps_settled p s s1 Hstep Hinv).
Qed.

End LoopFacts.

(* ================================================================== *)
(** ** More on the surface                                            *)
(* ================================================================== *)

Section SurfaceMore.
Import Js App.
Import Worker (result_message).

Lemma onMessage_unfold (data : value) (s : Surface) :
  onMessage data s =
  match get "status" data with
  | inl e => (inl e, s)
  | inr st =>
      match get "output" data with
      | inl e => (inl e, s)
      | inr out =>
          if strict_eq_str st "complete" then
            match array_map segment_text out with
            | inl e => (inl e, s)
            | inr texts =>
                match join " " texts with
                | inl e => (inl e, s)
                | inr joined =>
                    (inr tt, mkSurface (audioSrc s) joined (classList s))
                end
            end
          else (inr tt, s)
      end
  end.
Proof.
  unfold onMessage, bind, lift.
  destruct (get "status" data) as [e | st]; [reflexivity |].
  destruct (get "output" data) as [e | out]; [reflexivity |].
  destruct (strict_eq_str st "complete"); [| reflexivity].
  destruct (array_map segment_text out) as [e | texts]; [reflexivity |].
  now destruct (join " " texts).
Qed.

(** X1.  A message can only replace the transcript: [onMessage] never
    changes the selected source or the class list, and when it throws
    (a [null] message, an output that is not an array, an entry without
    [dr]) it leaves the whole state as it was. *)
Theorem onMessage_throw_changes_nothing (data : value) (s : Surface) :
  audioSrc (snd (onMessage data s)) = audioSrc s
  /\ classList (snd (onMessage data s)) = classList s
  /\ (forall e, fst (onMessage data s) = inl e -> snd (onMessage data s) = s).
Proof.
  rewrite onMessage_unfold.
  destruct (get "status" data) as [e | st]; [now repeat split |].
  destruct (get "output" data) as [e | out]; [now repeat split |].
  destruct (strict_eq_str st "complete"); [| now repeat split].
  destruct (array_map segment_text out) as [e | texts];
    [repeat split; intros; discriminate |].
  destruct (join " " texts); repeat split; intros; discriminate.
Qed.

Lemma onMessage_throw_changes_nothing_witness :
  snd (onMessage (result_message (VObj [("text", VStr "not an array")]))
         (mkSurface "blob:a" "earlier" None))
  = mkSurface "blob:a" "earlier" None.
Proof.
  apply (proj2 (proj2 (onMessage_throw_changes_nothing
                         (result_message (VObj [("text", VStr "not an array")]))
                         (mkSurface "blob:a" "earlier" None)))
           (TypeError "map is not a function")).
  reflexivity.
Defined.

Lemma segment_text_reads (seg t : value) :
  segment_text seg = inr t
  <-> exists d, get "dr" seg = inr d /\ get "text" d = inr t.
Proof.
  unfold segment_text. split.
  - destruct (get "dr" seg) as [e | d]; [discriminate | eauto].
  - now intros (d & -> & Ht).
Qed.

Lemma map_throwing_Forall2 {A B : Type} (f : A -> completion B)
    (xs : list A) (ys : list B) :
  map_throwing f xs = inr ys <-> Forall2 (fun x y => f x = inr y) xs ys.
Proof.
  revert ys. induction xs as [| x xs IH]; intros ys; cbn.
  - split.
    + intros H. injection H as <-. constructor.
    + intros H. now inversion H.
  - split.
    + destruct (f x) as [e | y] eqn:Hx; [discriminate |].
      destruct (map_throwing f xs) as [e | ys'] eqn:Hxs; [discriminate |].
      intros H. injection H as <-. constructor; [assumption |].
      now apply IH.
    + intros H. inversion H as [| ? y ? ys' Hx Hxs]; subst.
      apply IH in Hxs. now rewrite Hx, Hxs.
Qed.

Lemma join_part_prints (x : value) :
  (exists part,
      (if is_nullish x then inr EmptyString else ToString x) = inr part)
  <-> unprintable x = false.
Proof.
  unfold ToString. destruct (unprintable x) eqn:Hp.
  - split; [| discriminate]. intros [part H].
    destruct x; cbn in *; congruence.
  - split; [reflexivity |]. intros _. destruct (is_nullish x); eauto.
Qed.

Lemma join_prints_iff (sep : string) (texts : list value) :
  (exists joined, join sep texts = inr joined)
  <-> Forall (fun t => unprintable t = false) texts.
Proof.
  unfold join.
  match goal with
  | |- context [map_throwing ?f texts] => remember f as part_of eqn:Hpart
  end.
  assert (Hone : forall x, (exists part, part_of x = inr part)
                           <-> unprintable x = false)
    by (intros x; subst part_of; apply join_part_prints).
  clear Hpart. induction texts as [| t texts IH]; cbn.
  - split; [constructor | eauto].
  - destruct (part_of t) as [e | part] eqn:Ht; cbn.
    + split; [intros [joined H]; discriminate |].
      intros H. inversion H as [| ? ? Hp _]; subst.
      apply Hone in Hp. destruct Hp as [part Hp]. congruence.
    + destruct (map_throwing part_of texts) as [e | parts] eqn:Hrest; cbn.
      * split; [intros [joined H]; discriminate |].
        intros H. inversion H as [| ? ? _ Hps]; subst.
        apply IH in Hps. destruct Hps as [joined Hj]. discriminate.
      * split; [| eauto]. intros _. constructor.
        -- apply Hone. eauto.
        -- apply IH. eauto.
Qed.

(** X2.  [onMessage] returns normally exactly when the message is not
    [null] or [undefined] and, if its status is "complete", its output is
    an array each of whose entries has a [dr] that is neither [null] nor
    [undefined] and whose [text] can be printed: a missing text is fine,
    an object that has a [toString] property of its own is not. *)
Theorem onMessage_accepts_iff (data : value) (s : Surface) :
  fst (onMessage data s) = inr tt
  <-> exists st out,
        get "status" data = inr st
        /\ get "output" data = inr out
        /\ (strict_eq_str st "complete" = true ->
            exists segs,
              out = VArr segs
              /\ Forall (fun seg => exists d t,
                            get "dr" seg = inr d
                            /\ get "text" d = inr t
                            /\ unprintable t = false) segs).
Proof.
  rewrite onMessage_unfold. split.
  - destruct (get "status" data) as [e | st]; [discriminate |].
    destruct (get "output" data) as [e | out]; [discriminate |].
    intros H. exists st, out. repeat split. intros Hc. rewrite Hc in H.
    destruct out as [| | b | r | t | segs | props]; try discriminate.
    exists segs. split; [reflexivity |]. cbn [array_map] in H.
    destruct (map_throwing segment_text segs) as [e | texts] eqn:Hmap;
      [discriminate |].
    destruct (join " " texts) as [e | joined] eqn:Hjoin; [discriminate |].
    apply map_throwing_Forall2 in Hmap.
    assert (Hprint : Forall (fun t => unprintable t = false) texts)
      by (apply (join_prints_iff " "); eauto).
    clear - Hmap Hprint.
    induction Hmap as [| seg t segs texts Hseg _ IH]; constructor.
    + inversion Hprint; subst. apply segment_text_reads in Hseg.
      destruct Hseg as (d & Hd & Ht). eauto.
    + apply IH. now inversion Hprint.
  - intros (st & out & -> & -> & Hc).
    destruct (strict_eq_str st "complete"); [| reflexivity].
    destruct (Hc eq_refl) as (segs & -> & Hall).
    assert (Htexts : exists texts,
               Forall2 (fun seg t => segment_text seg = inr t) segs texts
               /\ Forall (fun t => unprintable t = false) texts).
    { clear - Hall. induction Hall as [| seg segs (d & t & Hd & Ht & Hp) _ IH].
      - exists []. split; constructor.
      - destruct IH as (texts & H2 & Hf). exists (t :: texts). split.
        + constructor; [| assumption]. apply segment_text_reads. eauto.
        + now constructor. }
    destruct Htexts as (texts & H2 & Hf).
    apply map_throwing_Forall2 in H2. cbn [array_map]. rewrite H2.
    apply (join_prints_iff " ") in Hf. destruct Hf as [joined ->].
    reflexivity.
Qed.

Lemma onMessage_accepts_iff_witness :
  fst (onMessage (result_message (VArr [VObj [("dr", VObj [])]; VObj [("dr", VNum "1")]]))
         (initial None)) = inr tt.
Proof.
  apply (proj2 (onMessage_accepts_iff _ (initial None))).
  exists (VStr "complete"),
    (VArr [VObj [("dr", VObj [])]; VObj [("dr", VNum "1")]]).
  repeat split. intros _. eexists. split; [reflexivity |].
  repeat constructor; do 2 eexists; repeat split; reflexivity.
Defined.

End SurfaceMore.

Section DropZone.
Import Js App.

Lemma existsb_eqb_In (token : string) (cl : list string) :
  existsb (String.eqb token) cl = true <-> In token cl.
Proof.
  rewrite existsb_exists. split.
  - intros (c & Hc & Heq). apply String.eqb_eq in Heq. now subst.
  - intros Hin. exists token. split; [assumption | apply String.eqb_refl].
Qed.

Lemma remove_absent (token : string) (cl : list string) :
  ~ In token cl ->
  filter (fun c => negb (String.eqb c token)) cl = cl.
Proof.
  induction cl as [| c cl IH]; cbn; intros Hni.
  - reflexivity.
  - destruct (String.eqb_spec c token) as [-> | Hne]; cbn.
    + elim Hni. now left.
    + rewrite IH; [reflexivity |]. intros H. apply Hni. now right.
Qed.

Lemma remove_added (token : string) (cl : list string) :
  ~ In token cl ->
  filter (fun c => negb (String.eqb c token)) (cl ++ [token]) = cl.
Proof.
  intros Hni. rewrite filter_app, (remove_absent token cl Hni). cbn.
  rewrite String.eqb_refl. apply app_nil_r.
Qed.

Lemma surface_eta (s : Surface) :
  mkSurface (audioSrc s) (text s) (classList s) = s.
Proof. now destruct s. Qed.

(** X3.  The highlight of the drop zone.  Entering adds the class
    border-blue-700 once, keeping every other class and the absence of
    duplicates; a further drag-over changes nothing; leaving, or dropping,
    takes the class away again, so that a zone which was not highlighted
    is back to the classes it had.  None of this touches the selected
    source or the transcript, and without an element behind [ref] nothing
    changes at all. *)
Theorem drag_highlight_comes_and_goes (s : Surface) :
  (forall cl, classList s = Some cl ->
     exists cl1,
       snd (onDragEnter s) = mkSurface (audioSrc s) (text s) (Some cl1)
       /\ In "border-blue-700" cl1
       /\ (NoDup cl -> NoDup cl1)
       /\ (forall c, c <> "border-blue-700" -> (In c cl1 <-> In c cl))
       /\ snd (onDragOver (snd (onDragEnter s))) = snd (onDragEnter s)
       /\ (~ In "border-blue-700" cl ->
           snd (onDragLeave (snd (onDragEnter s))) = s
           /\ forall File createObjectURL (e : DragEvent File),
               classList (snd (handleDrop File createObjectURL e
                                 (snd (onDragEnter s)))) = Some cl))
  /\ (forall cl, classList (snd (onDragLeave s)) = Some cl ->
                 ~ In "border-blue-700" cl)
  /\ (classList s = None ->
      snd (onDragEnter s) = s /\ snd (onDragOver s) = s
      /\ snd (onDragLeave s) = s).
Proof.
  unfold onDragEnter, onDragOver, onDragLeave, classList_add, classList_remove.
  split; [| split].
  - intros cl Hcl. cbn -[String.eqb]. rewrite Hcl. cbn -[String.eqb].
    destruct (existsb (String.eqb "border-blue-700") cl) eqn:Hex.
    + assert (Hin : In "border-blue-700" cl) by now apply existsb_eqb_In.
      exists cl. rewrite Hex. repeat split; auto; contradiction.
    + assert (Hni : ~ In "border-blue-700" cl).
      { intros Hin. apply existsb_eqb_In in Hin. congruence. }
      exists (cl ++ ["border-blue-700"]).
      rewrite (proj2 (existsb_eqb_In "border-blue-700" (cl ++ ["border-blue-700"])))
        by (apply in_or_app; right; now left).
      rewrite (remove_added _ cl Hni).
      repeat split.
      * apply in_or_app. right. now left.
      * intros Hnd. apply NoDup_app; [assumption | repeat constructor; auto |].
        intros c Hc [<- | []]. contradiction.
      * intros Hin. apply in_app_or in Hin. destruct Hin as [Hin | [<- | []]];
          [assumption | contradiction].
      * intros Hin. apply in_or_app. now left.
      * rewrite <- Hcl. apply surface_eta.
      * intros File createObjectURL e.
        unfold handleDrop, bind, classList_remove, setAudioSrc, ret.
        cbn -[String.eqb].
        destruct (files File e), (uri_list File e); reflexivity.
  - cbn -[String.eqb]. destruct (classList s) as [cl0 |]; cbn -[String.eqb];
      [| discriminate].
    intros cl Hcl. injection Hcl as <-. intros Hin.
    apply filter_In in Hin. destruct Hin as [_ Hne].
    now rewrite String.eqb_refl in Hne.
  - intros Hnone. cbn -[String.eqb]. rewrite Hnone. cbn -[String.eqb].
    rewrite <- Hnone. repeat split; apply surface_eta.
Qed.

Lemma drag_highlight_comes_and_goes_witness :
  snd (onDragLeave
         (snd (onDragEnter
                 (mkSurface "blob:a" "t" (Some ["border-2"; "border-dashed"])))))
  = mkSurface "blob:a" "t" (Some ["border-2"; "border-dashed"]).
Proof.
  destruct (proj1 (drag_highlight_comes_and_goes
                     (mkSurface "blob:a" "t" (Some ["border-2"; "border-dashed"])))
              ["border-2"; "border-dashed"] eq_refl)
    as (cl1 & _ & _ & _ & _ & _ & Hback).
  apply Hback. cbn. intros [H | [H | []]]; discriminate.
Defined.

End DropZone.

(* ================================================================== *)
(** ** From a selection to the worker's fetch                         *)
(* ================================================================== *)

Section Selection.
Import Js App.

Lemma handleAnalysis_posts (s : Surface) :
  audioSrc s <> EmptyString ->
  handleAnalysis s = Some (VObj [("audioSrc", VStr (audioSrc s))]).
Proof.
  unfold handleAnalysis. destruct (audioSrc s); [now intros H; elim H |].
  reflexivity.
Qed.

Lemma handleAnalysis_silent (s : Surface) :
  handleAnalysis s = None <-> audioSrc s = EmptyString.
Proof.
  unfold handleAnalysis. destruct (audioSrc s); split; intros; 
    (reflexivity || discriminate).
Qed.

(** X4.  The button is disabled exactly when a click would post nothing,
    and the audio element is hidden exactly then; when the button is
    enabled, a click posts the very locator the audio element plays. *)
Theorem button_enabled_iff_click_posts (s : Surface) :
  (button_disabled (render s) = true <-> handleAnalysis s = None)
  /\ audio_hidden (render s) = button_disabled (render s)
  /\ (button_disabled (render s) = false ->
      handleAnalysis s = Some (VObj [("audioSrc", VStr (audio_src (render s)))])).
Proof.
  unfold render. cbn. split; [| split].
  - rewrite handleAnalysis_silent. destruct (audioSrc s); cbn; split; intros;
      (reflexivity || discriminate).
  - reflexivity.
  - intros Hen. apply handleAnalysis_posts. intros Heq. now rewrite Heq in Hen.
Qed.

Lemma button_enabled_iff_click_posts_witness :
  handleAnalysis (mkSurface "blob:a" EmptyString None)
  = Some (VObj [("audioSrc", VStr "blob:a")]).
Proof.
  apply (button_enabled_iff_click_posts (mkSurface "blob:a" EmptyString None)).
  reflexivity.
Defined.

Lemma fetched_app (t1 t2 : list Worker.Event) :
  Worker.fetched (t1 ++ t2) = Worker.fetched t1 ++ Worker.fetched t2.
Proof. unfold Worker.fetched. apply flat_map_app. Qed.

Lemma fetched_fetches (locations : list string) :
  Worker.fetched (map Worker.EFetch locations) = locations.
Proof.
  induction locations as [| u rest IH]; cbn; [reflexivity |].
  f_equal. exact IH.
Qed.

Lemma fetched_reads (responses : list Worker.Response) :
  Worker.fetched (map Worker.EArrayBuffer responses) = [].
Proof.
  induction responses as [| r rest IH]; cbn; [reflexivity | exact IH].
Qed.

Lemma fetched_loader (w : Worker.World) (locations : list string) :
  Worker.fetched (fst (Worker.loadAssets w locations)) = locations.
Proof.
  rewrite loadAssets_unfold.
  destruct (Worker.outcome (Worker.Promise_all (map (Worker.fetch w) locations)));
    cbn [fst]; rewrite fetched_app, fetched_fetches; cbn.
  - apply app_nil_r.
  - rewrite fetched_app, fetched_reads. cbn. apply app_nil_r.
Qed.

(** What one run fetches: the four assets, then at most the audio. *)
Lemma listener_fetches (w : Worker.World) (data : value) :
  (Worker.fetched (fst (Worker.listener w data)) = Worker.model
   \/ exists src url,
        get "audioSrc" data = inr src
        /\ ToString src = inr url
        /\ Worker.fetched (fst (Worker.listener w data))
           = Worker.model ++ [url])
  /\ (snd (Worker.listener w data) = inr tt ->
      exists src url,
        get "audioSrc" data = inr src
        /\ ToString src = inr url
        /\ Worker.fetched (fst (Worker.listener w data))
           = Worker.model ++ [url]).
Proof.
  rewrite listener_unfold.
  pose proof (fetched_loader w Worker.model) as Hload.
  destruct (Worker.loadAssets w Worker.model) as [t0 r0]. cbn [fst] in Hload.
  destruct r0; cbv zeta;
    repeat match goal with
           | |- context [match ?c with inl _ => _ | inr _ => _ end] =>
               destruct c eqn:?
           end;
    cbn [fst snd]; rewrite ?fetched_app, ?Hload;
    (split; [| intros; try discriminate]);
    try (left; cbn [Worker.fetched flat_map app];
         rewrite ?app_nil_r; reflexivity);
    try (right; do 2 eexists; repeat split; (eassumption || reflexivity));
    try (do 2 eexists; repeat split; (eassumption || reflexivity)).
Qed.

(** X5.  The message a click posts carries the selected source, and the
    worker reads it back: a run started by that message fetches the four
    model assets and then at most one more location, the selected source;
    a run that succeeds has fetched exactly those five, in that order. *)
Theorem selected_source_is_what_the_worker_fetches
    (s : Surface) (message : value) (w : Worker.World) :
  handleAnalysis s = Some message ->
  get "audioSrc" message = inr (VStr (audioSrc s))
  /\ (Worker.fetched (fst (Worker.listener w message)) = Worker.model
      \/ Worker.fetched (fst (Worker.listener w message))
         = Worker.model ++ [audioSrc s])
  /\ (snd (Worker.listener w message) = inr tt ->
      Worker.fetched (fst (Worker.listener w message))
      = Worker.model ++ [audioSrc s]).
Proof.
  intros Hpost.
  assert (Hmsg : message = VObj [("audioSrc", VStr (audioSrc s))]).
  { unfold handleAnalysis in Hpost. destruct (audioSrc s); [discriminate |].
    now injection Hpost as <-. }
  subst message. split; [reflexivity |].
  destruct (listener_fetches w (VObj [("audioSrc", VStr (audioSrc s))]))
    as [Hany Hok].
  split.
  - destruct Hany as [H | (src & url & Hsrc & Hurl & H)]; [now left |].
    right. cbn in Hsrc. injection Hsrc as <-.
    cbn in Hurl. injection Hurl as <-. exact H.
  - intros Hdone. destruct (Hok Hdone) as (src & url & Hsrc & Hurl & H).
    cbn in Hsrc. injection Hsrc as <-.
    cbn in Hurl. injection Hurl as <-. exact H.
Qed.

Lemma selected_source_is_what_the_worker_fetches_witness :
  Worker.fetched
    (fst (Worker.listener (Scenario.transcribing "hi")
            (VObj [("audioSrc", VStr "blob:a")])))
  = Worker.model ++ ["blob:a"].
Proof.
  apply (selected_source_is_what_the_worker_fetches
           (mkSurface "blob:a" EmptyString None)
           (VObj [("audioSrc", VStr "blob:a")])
           (Scenario.transcribing "hi") eq_refl).
  reflexivity.
Defined.

Section Picker.
Variable File : Type.
Variable createObjectURL : File -> string.

(** X6.  The file picker.  Choosing files selects the object URL minted
    for the first one, and the next click posts that URL; a change event
    with no file (a [null] or empty list) changes nothing.  The handler
    never throws and never touches the transcript or the class list. *)
Theorem picked_file_is_selected_and_posted :
  (forall f others s,
      createObjectURL f <> EmptyString ->
      handleAnalysis (snd (handleChange File createObjectURL (Some (f :: others)) s))
      = Some (VObj [("audioSrc", VStr (createObjectURL f))]))
  /\ (forall target_files s,
         target_files = None \/ target_files = Some [] ->
         handleChange File createObjectURL target_files s = (inr tt, s))
  /\ (forall target_files s,
         fst (handleChange File createObjectURL target_files s) = inr tt
         /\ text (snd (handleChange File createObjectURL target_files s)) = text s
         /\ classList (snd (handleChange File createObjectURL target_files s))
            = classList s).
Proof.
  repeat apply conj.
  - intros f others s Hurl. now apply handleAnalysis_posts.
  - intros target_files s [-> | ->]; reflexivity.
  - intros [[| f fs] |] s; repeat split.
Qed.

(** X7.  After a drop, a click posts what was dropped: the object URL of
    the first file, or else the dropped URL; a drop that carries neither
    leaves the next click as it was. *)
Theorem dropped_source_is_posted (e : DragEvent File) (s : Surface) :
  (forall f others,
      files File e = f :: others ->
      createObjectURL f <> EmptyString ->
      handleAnalysis (snd (handleDrop File createObjectURL e s))
      = Some (VObj [("audioSrc", VStr (createObjectURL f))]))
  /\ (files File e = [] ->
      uri_list File e <> EmptyString ->
      handleAnalysis (snd (handleDrop File createObjectURL e s))
      = Some (VObj [("audioSrc", VStr (uri_list File e))]))
  /\ (files File e = [] ->
      uri_list File e = EmptyString ->
      handleAnalysis (snd (handleDrop File createObjectURL e s))
      = handleAnalysis s).
Proof.
  unfold handleDrop, bind, classList_remove. repeat apply conj.
  - intros f others -> Hurl. now apply handleAnalysis_posts.
  - intros -> Hurl. destruct (uri_list File e) eqn:Hu; [now elim Hurl |].
    apply handleAnalysis_posts. discriminate.
  - intros -> ->. reflexivity.
Qed.
End Picker.

Lemma picked_file_is_selected_and_posted_witness :
  handleAnalysis
    (snd (handleChange string (fun name => "blob:" ++ name)%string
            (Some ["a.mp3"; "b.mp3"]) (initial None)))
  = Some (VObj [("audioSrc", VStr "blob:a.mp3")]).
Proof.
  apply (proj1 (picked_file_is_selected_and_posted string
                  (fun name => "blob:" ++ name)%string)).
  discriminate.
Defined.

Lemma dropped_source_is_posted_witness :
  handleAnalysis
    (snd (handleDrop string (fun name => "blob:" ++ name)%string
            (mkDrag string "https://example.org/a.wav" []) (initial None)))
  = Some (VObj [("audioSrc", VStr "https://example.org/a.wav")]).
Proof.
  apply (proj1 (proj2 (dropped_source_is_posted string
                         (fun name => "blob:" ++ name)%string
                         (mkDrag string "https://example.org/a.wav" [])
                         (initial None)))).
  - reflexivity.
  - discriminate.
Defined.

End Selection.

(* ================================================================== *)
(** ** More on the worker                                             *)
(* ================================================================== *)

Section WorkerMore.
Import Js Worker.

Lemma all_fulfilled_values {A} (ps : list (Promise A)) :
  (forall q e, In q ps -> outcome q <> inl e) ->
  map outcome ps = map inr (fulfilled_values ps).
Proof.
  unfold fulfilled_values.
  induction ps as [| p ps IH]; cbn; intros Hall.
  - reflexivity.
  - destruct (outcome p) as [e | a] eqn:Hp.
    + elim (Hall p e); auto.
    + cbn. f_equal. apply IH. intros q e Hq. apply Hall. now right.
Qed.

Lemma Promise_all_fulfilled_inv {A} (ps : list (Promise A)) (vs : list A) :
  outcome (Promise_all ps) = inr vs ->
  map outcome ps = map inr vs.
Proof.
  unfold Promise_all.
  destruct (earliest_rejection ps) as [[t e] |] eqn:Hearly; cbn;
    [discriminate |].
  intros Hvs. injection Hvs as <-.
  apply all_fulfilled_values. now apply earliest_rejection_absent.
Qed.

(** X8.  The loader yields a bundle exactly when every fetch fulfils and
    every body read fulfils, and the bundle then holds, location by
    location and in the order of the locations, the bytes read from that
    location's response. *)
Theorem loadAssets_yields_iff_all_fulfil
    (w : World) (locations : list string) (buffers : list bytes) :
  snd (loadAssets w locations) = inr buffers
  <-> Forall2 (fun u b => exists r, outcome (fetch w u) = inr r
                                    /\ outcome (arrayBuffer r) = inr b)
        locations buffers.
Proof.
  rewrite loadAssets_unfold. split.
  - destruct (outcome (Promise_all (map (fetch w) locations)))
      as [e | responses] eqn:Hfetch; cbn [snd]; [discriminate |].
    destruct (outcome (Promise_all (map arrayBuffer responses)))
      as [e | bodies] eqn:Hread; [discriminate |].
    intros Hb. injection Hb as <-. unfold Uint8Array. rewrite map_id.
    apply Promise_all_fulfilled_inv in Hfetch, Hread.
    rewrite map_map in Hfetch, Hread.
    clear - Hfetch Hread. revert responses bodies Hfetch Hread.
    induction locations as [| u rest IH]; intros [| r rs] bodies Hf Hr;
      cbn in *; try discriminate.
    + destruct bodies; [constructor | discriminate].
    + destruct bodies as [| b bs]; [discriminate |].
      injection Hf as Hu Hrest. injection Hr as Hb Hbs.
      constructor; [now exists r | now apply (IH rs)].
  - intros Hall.
    assert (Hrs : exists responses,
               map outcome (map (fetch w) locations) = map inr responses
               /\ map outcome (map arrayBuffer responses) = map inr buffers).
    { induction Hall as [| u b us bs (r & Hu & Hb) _ (rs & Hf & Hr)].
      - now exists [].
      - exists (r :: rs). cbn. now rewrite Hu, Hb, Hf, Hr. }
    destruct Hrs as (responses & Hf & Hr).
    rewrite (Promise_all_fulfils _ _ Hf). cbn [snd].
    rewrite (Promise_all_fulfils _ _ Hr). unfold Uint8Array.
    now rewrite map_id.
Qed.

Lemma loadAssets_yields_iff_all_fulfil_witness :
  Forall2 (fun u b => exists r,
               outcome (fetch Scenario.config_404 u) = inr r
               /\ outcome (arrayBuffer r) = inr b)
    ["model/tokenizer.json"; "model/config.json"]
    [list_byte_of_string "model/tokenizer.json"; list_byte_of_string "Not Found"].
Proof.
  apply (proj1 (loadAssets_yields_iff_all_fulfil Scenario.config_404
                  ["model/tokenizer.json"; "model/config.json"]
                  [list_byte_of_string "model/tokenizer.json";
                   list_byte_of_string "Not Found"])).
  reflexivity.
Defined.

(** X9.  A body read that rejects fails the load too, but later than a
    rejected fetch: every fetch has fulfilled and [arrayBuffer] has been
    called on every response before the loader rejects, with the reason
    of a body read that rejected; in the listener no engine is constructed
    and the run ends there. *)
Theorem rejected_body_read_fails_load
    (w : World) (locations : list string) (responses : list Response)
    (r0 : Response) (e0 : exn) :
  map outcome (map (fetch w) locations) = map inr responses ->
  In r0 responses ->
  outcome (arrayBuffer r0) = inl e0 ->
  exists r e,
    In r responses
    /\ outcome (arrayBuffer r) = inl e
    /\ loadAssets w locations
       = (map EFetch locations
            ++ EAwait :: map EArrayBuffer responses ++ [EAwait],
          inl e)
    /\ (locations = model ->
        forall data,
          listener w data
          = (map EFetch model ++ EAwait :: map EArrayBuffer responses ++ [EAwait],
             inl e)).
Proof.
  intros Hfetch Hin Hrej.
  destruct (Promise_all_rejects (map arrayBuffer responses))
    as (p & e & Hp & Hout & Hall & _).
  { exists (arrayBuffer r0), e0. split; [now apply in_map | assumption]. }
  apply in_map_iff in Hp. destruct Hp as (r & <- & Hr).
  exists r, e. split; [assumption |]. split; [assumption |].
  assert (Hload :
    loadAssets w locations
    = (map EFetch locations ++ EAwait :: map EArrayBuffer responses ++ [EAwait],
       inl e)).
  { rewrite loadAssets_unfold, (Promise_all_fulfils _ _ Hfetch), Hall.
    reflexivity. }
  split; [exact Hload |].
  intros -> data. rewrite listener_unfold, Hload. reflexivity.
Qed.

Lemma rejected_body_read_fails_load_witness :
  exists r e,
    In r [mkResponse true 200 (mkPromise 3 (inl (TypeError "network error")))]
    /\ outcome (arrayBuffer r) = inl e
    /\ loadAssets
         (Scenario.with_fetch "a"
            (mkPromise 1
               (inr (mkResponse true 200
                       (mkPromise 3 (inl (TypeError "network error"))))))
            (Scenario.serving VNull))
         ["a"]
       = (map EFetch ["a"]
            ++ EAwait
            :: map EArrayBuffer
                 [mkResponse true 200
                    (mkPromise 3 (inl (TypeError "network error")))]
            ++ [EAwait],
          inl e).
Proof.
  destruct (rejected_body_read_fails_load
              (Scenario.with_fetch "a"
                 (mkPromise 1
                    (inr (mkResponse true 200
                            (mkPromise 3 (inl (TypeError "network error"))))))
                 (Scenario.serving VNull))
              ["a"]
              [mkResponse true 200 (mkPromise 3 (inl (TypeError "network error")))]
              (mkResponse true 200 (mkPromise 3 (inl (TypeError "network error"))))
              (TypeError "network error"))
    as (r & e & H1 & H2 & H3 & _).
  - reflexivity.
  - now left.
  - reflexivity.
  - exists r, e. auto.
Defined.

(** The arguments the listener gives the constructor, from the loaded
    buffers: the third and fourth buffer change places. *)
Lemma fetched_loader_trace (w : World) (locations : list string) :
  fetched (fst (loadAssets w locations)) = locations.
Proof.
  rewrite loadAssets_unfold.
  assert (Hf : forall l, fetched (map EFetch l) = l)
    by (induction l as [| u l IH]; cbn; [reflexivity | f_equal; exact IH]).
  assert (Hb : forall l, fetched (map EArrayBuffer l) = [])
    by (induction l as [| r l IH]; cbn; [reflexivity | exact IH]).
  unfold fetched in *.
  destruct (outcome (Promise_all (map (fetch w) locations)));
    cbn [fst]; rewrite flat_map_app, Hf; cbn.
  - apply app_nil_r.
  - rewrite flat_map_app, Hb. cbn. apply app_nil_r.
Qed.

(** Cuts a goal about [listener w data] into the ways a run can go,
    keeping what is known of the loader's part [t0] of the trace. *)
Ltac split_run w data :=
  rewrite ?(listener_unfold w data);
  let Hnet := fresh "Hnet" in
  let Hfet := fresh "Hfet" in
  pose proof (loader_trace_network w model) as Hnet;
  pose proof (fetched_loader_trace w model) as Hfet;
  let t0 := fresh "t0" in
  let r0 := fresh "r0" in
  destruct (loadAssets w model) as [t0 r0] eqn:?; cbn [fst] in Hnet, Hfet;
  destruct r0; cbv zeta;
  repeat match goal with
         | |- context [match ?c with inl _ => _ | inr _ => _ end] =>
             destruct c eqn:?
         end;
  cbn [fst snd];
  unfold fetched in *;
  rewrite ?count_app, ?posted_app, ?flat_map_app, ?length_app,
    ?(network_posted _ Hnet), ?(network_no_new _ Hnet),
    ?(network_no_decode _ Hnet), ?Hfet;
  cbn.

Lemma network_no_post (t : list Event) :
  Forall (fun e => is_network e = true) t -> count is_post t = 0.
Proof.
  apply network_count. intros e; destruct e; (discriminate || reflexivity).
Qed.

(** X10.  After the assets are loaded a run takes its steps in one fixed
    order and none of them twice: initialise the wasm module, construct
    the engine, fetch the audio, read its body, decode, post.  A run may
    stop after any of them, but it never takes a step without having taken
    all the steps before it. *)
Theorem effects_come_in_order (w : World) (data : value) :
  exists rest,
    fst (listener w data) = fst (loadAssets w model) ++ rest
    /\ steps rest = seq 0 (length (steps rest)).
Proof.
  rewrite listener_unfold.
  destruct (loadAssets w model) as [t0 [e | assets]]; cbn [fst].
  - exists []. split; [now rewrite app_nil_r | reflexivity].
  - cbv zeta.
    repeat match goal with
           | |- context [match ?c with inl _ => _ | inr _ => _ end] =>
               destruct c
           end;
      cbn [fst]; eexists; split; reflexivity.
Qed.

(** X11.  A run succeeds exactly when every step does, and then the data
    goes where it should: the engine is constructed from the loaded
    buffers (weights, tokenizer, mel filters, config, in that order, with
    the fixed flags), the location fetched for the audio is the requested
    [audioSrc] converted to a string, the engine decodes the bytes read
    from that location, and the one message posted carries the parse of
    what [decode] returned. *)
Theorem successful_run_data_flow (w : World) (data : value) :
  snd (listener w data) = inr tt
  <-> exists assets instance src url resp audio payload output,
        snd (loadAssets w model) = inr assets
        /\ outcome (init w) = inr tt
        /\ Decoder_new w
             (mkArgs (nth_error assets 0) (nth_error assets 1)
                     (nth_error assets 3) (nth_error assets 2)
                     false true true VNull VNull) = inr instance
        /\ get "audioSrc" data = inr src
        /\ ToString src = inr url
        /\ outcome (fetch w url) = inr resp
        /\ outcome (arrayBuffer resp) = inr audio
        /\ decode w instance audio = inr payload
        /\ JSON_parse w payload = inr output
        /\ In (EDecode instance audio) (fst (listener w data))
        /\ posted (fst (listener w data)) = [result_message output].
Proof.
  split.
  - split_run w data; intros; try discriminate.
    match goal with H : outcome (init w) = inr ?u |- _ => destruct u end.
    do 8 eexists. repeat split; try eassumption; try reflexivity.
    apply in_or_app. right. cbn. tauto.
  - intros (assets & instance & src & url & resp & audio & payload & output
            & Hload & Hinit & Hnew & Hsrc & Hurl & Hfetch & Hread & Hdec
            & Hparse & _).
    rewrite listener_unfold.
    destruct (loadAssets w model) as [t0 r0]. cbn [snd] in Hload. subst r0.
    rewrite Hinit. cbv zeta. rewrite Hnew, Hsrc, Hurl.
    rewrite Hfetch, Hread, Hdec, Hparse. reflexivity.
Qed.

Lemma successful_run_data_flow_witness :
  snd (listener (Scenario.transcribing "hi") (Scenario.request "blob:a"))
  = inr tt.
Proof.
  apply (proj2 (successful_run_data_flow
                  (Scenario.transcribing "hi") (Scenario.request "blob:a"))).
  do 8 eexists. repeat split; try reflexivity.
  cbn. tauto.
Defined.

(** X12.  The request is looked at only after the engine is built.  A
    message whose data is [null] or [undefined] still has the assets
    fetched and, if they load, an engine constructed, and only then ends
    with a [TypeError], with no audio fetched and nothing posted; a message
    that lacks [audioSrc] makes the worker fetch the location
    "undefined". *)
Theorem request_is_read_after_construction (w : World) (data : value) :
  (is_nullish data = true ->
     fetched (fst (listener w data)) = model
     /\ posted (fst (listener w data)) = []
     /\ (forall assets instance,
            snd (loadAssets w model) = inr assets ->
            outcome (init w) = inr tt ->
            Decoder_new w
              (mkArgs (nth_error assets 0) (nth_error assets 1)
                      (nth_error assets 3) (nth_error assets 2)
                      false true true VNull VNull) = inr instance ->
            count is_new (fst (listener w data)) = 1
            /\ exists msg, snd (listener w data) = inl (TypeError msg)))
  /\ (get "audioSrc" data = inr VUndefined ->
      snd (listener w data) = inr tt ->
      fetched (fst (listener w data)) = model ++ ["undefined"]).
Proof.
  split.
  - intros Hnull.
    assert (Hget : exists msg, get "audioSrc" data = inl (TypeError msg))
      by (destruct data; try discriminate; cbn; eauto).
    destruct Hget as [msg Hget]. repeat apply conj.
    + split_run w data; rewrite ?app_nil_r; try reflexivity; congruence.
    + split_run w data; try reflexivity; congruence.
    + intros assets instance Hload Hinit Hnew. rewrite listener_unfold.
      pose proof (loader_trace_network w model) as Hnet.
      destruct (loadAssets w model) as [t0 r0]. cbn [fst snd] in *. subst r0.
      rewrite Hinit. cbv zeta. rewrite Hnew, Hget. cbn [fst snd].
      rewrite count_app, (network_no_new _ Hnet). split; [reflexivity | eauto].
  - intros Hsrc.
    split_run w data; intros; try discriminate.
    repeat match goal with
           | H : inr _ = inr VUndefined |- _ => injection H as ->
           end.
    match goal with
    | H : ToString VUndefined = inr _ |- _ => cbn in H; injection H as <-
    end.
    reflexivity.
Qed.

Lemma request_is_read_after_construction_witness :
  fetched (fst (listener (Scenario.transcribing "hi") VNull)) = model.
Proof.
  apply (proj1 (request_is_read_after_construction
                  (Scenario.transcribing "hi") VNull)).
  reflexivity.
Defined.

Lemma network_filter_new (t : list Event) :
  Forall (fun e => is_network e = true) t -> filter is_new t = [].
Proof.
  intros Hnet. apply length_zero_iff_nil. exact (network_no_new t Hnet).
Qed.

Lemma constructions_of_world (w : World) :
  exists built,
    (forall data, filter is_new (fst (listener w data)) = built)
    /\ (forall args, In (ENew args) built ->
          exists assets,
            snd (loadAssets w model) = inr assets
            /\ args = mkArgs (nth_error assets 0) (nth_error assets 1)
                             (nth_error assets 3) (nth_error assets 2)
                             false true true VNull VNull).
Proof.
  pose proof (loader_trace_network w model) as Hnet.
  destruct (loadAssets w model) as [t0 [e | assets]] eqn:Hload;
    cbn [fst snd] in *.
  - exists []. split; [| intros args []].
    intros data. rewrite listener_unfold, Hload. cbn [fst].
    now apply network_filter_new.
  - destruct (outcome (init w)) as [e | u] eqn:Hinit.
    + exists []. split; [| intros args []].
      intros data. rewrite listener_unfold, Hload, Hinit. cbn [fst].
      rewrite filter_app, (network_filter_new _ Hnet). reflexivity.
    + eexists [ENew _]. split.
      * intros data. rewrite listener_unfold, Hload, Hinit. cbv zeta.
        repeat match goal with
               | |- context [match ?c with inl _ => _ | inr _ => _ end] =>
                   destruct c
               end;
          cbn [fst]; rewrite filter_app, (network_filter_new _ Hnet);
          reflexivity.
      * intros args [Heq | []]. injection Heq as <-. now exists assets.
Qed.

(** X13.  How the engine is built does not depend on the request: two
    runs in the same world construct, or fail to construct, with the very
    same arguments whatever their messages say, and those arguments are
    the loaded buffers in the order weights, tokenizer, mel filters,
    config (the last two swapped with respect to [model]) followed by
    false, true, true, null, null. *)
Theorem construction_ignores_request (w : World) (data1 data2 : value) :
  filter is_new (fst (listener w data1)) = filter is_new (fst (listener w data2))
  /\ (forall args,
         In (ENew args) (fst (listener w data1)) ->
         exists assets,
           snd (loadAssets w model) = inr assets
           /\ args = mkArgs (nth_error assets 0) (nth_error assets 1)
                            (nth_error assets 3) (nth_error assets 2)
                            false true true VNull VNull).
Proof.
  destruct (constructions_of_world w) as (built & Hsame & Hargs).
  split.
  - now rewrite (Hsame data1), (Hsame data2).
  - intros args Hin. apply Hargs. rewrite <- (Hsame data1).
    apply filter_In. split; [assumption | reflexivity].
Qed.

Lemma construction_ignores_request_witness :
  exists assets,
    snd (loadAssets (Scenario.transcribing "hi") model) = inr assets
    /\ mkArgs (Some (list_byte_of_string "https://huggingface.co/openai/whisper-tiny/resolve/main/model.safetensors"))
              (Some (list_byte_of_string "model/tokenizer.json"))
              (Some (list_byte_of_string "model/mel_filters.safetensors"))
              (Some (list_byte_of_string "model/config.json"))
              false true true VNull VNull
       = mkArgs (nth_error assets 0) (nth_error assets 1)
                (nth_error assets 3) (nth_error assets 2)
                false true true VNull VNull.
Proof.
  apply (proj2 (construction_ignores_request (Scenario.transcribing "hi")
                  (Scenario.request "blob:a") VNull)).
  cbn. tauto.
Defined.

End WorkerMore.

(* ================================================================== *)
(** ** A decode and its result message                                *)
(* ================================================================== *)

Section LoopMore.
Import Js Worker EventLoop.

Lemma concat_turns (t : list Event) : concat (turns t) = visible t.
Proof.
  induction t as [| e t IH]; [reflexivity |].
  assert (Hne : turns t <> []) by (clear; destruct t as [| [] ?]; cbn;
    try discriminate; destruct (turns t); discriminate).
  unfold visible in *.
  destruct e; cbn [turns filter];
    destruct (turns t) as [| cur later]; try (now elim Hne);
    cbn [concat app] in *; now rewrite <- IH.
Qed.

Lemma events_of_app (id : nat) (l1 l2 : list (nat * Event)) :
  events_of id (l1 ++ l2) = events_of id l1 ++ events_of id l2.
Proof. unfold events_of. now rewrite filter_app, map_app. Qed.

Lemma events_of_tag_same (id : nat) (t : list Event) :
  events_of id (tag id t) = t.
Proof.
  unfold events_of, tag. induction t as [| e t IH]; cbn; [reflexivity |].
  rewrite Nat.eqb_refl. cbn. now rewrite IH.
Qed.

Lemma events_of_tag_other (i id : nat) (t : list Event) :
  i <> id -> events_of i (tag id t) = [].
Proof.
  intros Hne. unfold events_of, tag. induction t as [| e t IH]; cbn;
    [reflexivity |].
  destruct (Nat.eqb_spec id i) as [-> | _]; [now elim Hne | exact IH].
Qed.

Lemma events_of_unborn (id : nat) (l : list (nat * Event)) :
  (forall x, In x l -> fst x < id) -> events_of id l = [].
Proof.
  unfold events_of. induction l as [| x l IH]; cbn; intros Hlt;
    [reflexivity |].
  destruct (Nat.eqb_spec (fst x) id) as [Heq | _].
  - specialize (Hlt x (or_introl eq_refl)). lia.
  - apply IH. intros y Hy. apply Hlt. now right.
Qed.

Lemma skipn_head {A} (n : nat) (l : list A) (x : A) (rest : list A) :
  skipn n l = x :: rest ->
  nth_error l n = Some x /\ skipn (S n) l = rest.
Proof.
  revert l. induction n as [| n IH]; intros [| y l] Hskip; cbn in *;
    try discriminate.
  - injection Hskip as -> ->. now split.
  - now apply IH.
Qed.

Lemma pop_turn_length (id : nat) (ts ts' : list (list (list Event)))
    (t : list Event) :
  pop_turn id ts = Some (t, ts') -> length ts' = length ts.
Proof.
  revert id ts'. induction ts as [| task rest IH]; intros [| i] ts' Hpop;
    cbn in Hpop; try discriminate.
  - destruct task; [discriminate |]. now injection Hpop as _ <-.
  - destruct (pop_turn i rest) as [[t1 rest'] |] eqn:Hrec;
      [| destruct task; discriminate].
    assert (Heq : t1 = t /\ task :: rest' = ts')
      by (destruct task; injection Hpop as <- <-; auto).
    destruct Heq as [<- <-]. cbn. f_equal. exact (IH i rest' Hrec).
Qed.

Lemma posted_visible (t : list Event) : posted (visible t) = posted t.
Proof.
  unfold posted, visible. induction t as [| e t IH]; cbn; [reflexivity |].
  destruct e; cbn; now rewrite IH.
Qed.

(** What holds of the loop at every moment, for the requests [reqs] it
    was started with. *)
Lemma step_keeps_order (reqs : list Request) (p : Pick) (s s' : Loop) :
  step p s = Some s' ->
  (inbox s = skipn (length (tasks s)) reqs
   /\ (forall x, In x (log s) -> fst x < length (tasks s))
   /\ (forall i w data rest,
          nth_error reqs i = Some (w, data) ->
          nth_error (tasks s) i = Some rest ->
          events_of i (log s) ++ concat rest = visible (fst (listener w data)))) ->
  inbox s' = skipn (length (tasks s')) reqs
  /\ (forall x, In x (log s') -> fst x < length (tasks s'))
  /\ (forall i w data rest,
         nth_error reqs i = Some (w, data) ->
         nth_error (tasks s') i = Some rest ->
         events_of i (log s') ++ concat rest = visible (fst (listener w data))).
Proof.
  intros Hstep (Hinbox & Hids & Horder). destruct p as [| id]; cbn in Hstep.
  - destruct (inbox s) as [| [w0 data0] waiting] eqn:Hin; [discriminate |].
    pose proof (concat_turns (fst (listener w0 data0))) as Hturns.
    destruct (turns (fst (listener w0 data0))) as [| first later];
      [discriminate |].
    injection Hstep as <-. cbn [inbox tasks log].
    symmetry in Hinbox. apply skipn_head in Hinbox.
    destruct Hinbox as [Hnth Hrest].
    rewrite length_app. cbn [length]. rewrite Nat.add_1_r.
    split; [now symmetry |]. split.
    + intros x Hx. apply in_app_or in Hx. destruct Hx as [Hx | Hx].
      * specialize (Hids x Hx). lia.
      * unfold tag in Hx. apply in_map_iff in Hx.
        destruct Hx as (e & <- & _). cbn. lia.
    + intros i w data rest Hreq Htask. rewrite events_of_app.
      destruct (Nat.lt_ge_cases i (length (tasks s))) as [Hlt | Hge].
      * rewrite nth_error_app1 in Htask by assumption.
        rewrite events_of_tag_other by lia. rewrite app_nil_r.
        now apply Horder.
      * assert (Hi : i = length (tasks s)).
        { assert (i < length (tasks s ++ [later]))
            by (apply nth_error_Some; congruence).
          rewrite length_app in H. cbn in H. lia. }
        subst i. rewrite nth_error_app2 in Htask by apply le_n.
        rewrite Nat.sub_diag in Htask. cbn in Htask. injection Htask as <-.
        rewrite Hnth in Hreq. injection Hreq as <- <-.
        rewrite (events_of_unborn _ _ Hids), events_of_tag_same.
        exact Hturns.
  - destruct (pop_turn id (tasks s)) as [[t ts'] |] eqn:Hpop; [| discriminate].
    injection Hstep as <-. cbn [inbox tasks log].
    rewrite (pop_turn_length _ _ _ _ Hpop).
    destruct (pop_turn_spec id (tasks s) ts' t Hpop)
      as (later & Hn & Hn' & Hother & _).
    split; [assumption |]. split.
    + intros x Hx. apply in_app_or in Hx. destruct Hx as [Hx | Hx].
      * now apply Hids.
      * unfold tag in Hx. apply in_map_iff in Hx.
        destruct Hx as (e & <- & _). cbn.
        apply nth_error_Some. congruence.
    + intros i w data rest Hreq Htask. rewrite events_of_app.
      destruct (Nat.eq_dec i id) as [-> | Hne].
      * rewrite Hn' in Htask. injection Htask as <-.
        rewrite events_of_tag_same, <- app_assoc.
        exact (Horder id w data (t :: later) Hreq Hn).
      * rewrite (Hother i Hne) in Htask.
        rewrite events_of_tag_other by assumption. rewrite app_nil_r.
        now apply Horder.
Qed.

Lemma run_keeps_order (reqs : list Request) (picks : list Pick) (s s' : Loop) :
  run picks s = Some s' ->
  (inbox s = skipn (length (tasks s)) reqs
   /\ (forall x, In x (log s) -> fst x < length (tasks s))
   /\ (forall i w data rest,
          nth_error reqs i = Some (w, data) ->
          nth_error (tasks s) i = Some rest ->
          events_of i (log s) ++ concat rest = visible (fst (listener w data)))) ->
  inbox s' = skipn (length (tasks s')) reqs
  /\ (forall x, In x (log s') -> fst x < length (tasks s'))
  /\ (forall i w data rest,
         nth_error reqs i = Some (w, data) ->
         nth_error (tasks s') i = Some rest ->
         events_of i (log s') ++ concat rest = visible (fst (listener w data))).
Proof.
  revert s. induction picks as [| p picks IH]; cbn; intros s Hrun Hinv.
  - now injection Hrun as <-.
  - destruct (step p s) as [s1 |] eqn:Hstep; [| discriminate].
    apply (IH s1 Hrun). exact (step_keeps_order reqs p s s1 Hstep Hinv).
Qed.

Lemma step_keeps_count (reqs : list Request) (p : Pick) (s s' : Loop) :
  step p s = Some s' ->
  inbox s = skipn (length (tasks s)) reqs ->
  length (tasks s) <= length reqs ->
  length (tasks s') <= length reqs.
Proof.
  intros Hstep Hinbox Hle. destruct p as [| id]; cbn in Hstep.
  - destruct (inbox s) as [| [w0 data0] waiting] eqn:Hin; [discriminate |].
    destruct (turns (fst (listener w0 data0))) as [| first later];
      [discriminate |].
    injection Hstep as <-. cbn [tasks]. rewrite length_app. cbn [length].
    symmetry in Hinbox. apply skipn_head in Hinbox.
    destruct Hinbox as [Hnth _].
    assert (length (tasks s) < length reqs)
      by (apply nth_error_Some; congruence).
    lia.
  - destruct (pop_turn id (tasks s)) as [[t ts'] |] eqn:Hpop; [| discriminate].
    injection Hstep as <-. cbn [tasks].
    now rewrite (pop_turn_length _ _ _ _ Hpop).
Qed.

Lemma run_keeps_count (reqs : list Request) (picks : list Pick) (s s' : Loop) :
  run picks s = Some s' ->
  (inbox s = skipn (length (tasks s)) reqs
   /\ (forall x, In x (log s) -> fst x < length (tasks s))
   /\ (forall i w data rest,
          nth_error reqs i = Some (w, data) ->
          nth_error (tasks s) i = Some rest ->
          events_of i (log s) ++ concat rest = visible (fst (listener w data)))) ->
  length (tasks s) <= length reqs ->
  length (tasks s') <= length reqs.
Proof.
  revert s. induction picks as [| p picks IH]; cbn; intros s Hrun Hinv Hle.
  - now injection Hrun as <-.
  - destruct (step p s) as [s1 |] eqn:Hstep; [| discriminate].
    apply (IH s1 Hrun).
    + exact (step_keeps_order reqs p s s1 Hstep Hinv).
    + apply (step_keeps_count reqs p s s1 Hstep); [apply Hinv | exact Hle].
Qed.

Lemma events_of_cons_same (id : nat) (e : Event) (l : list (nat * Event)) :
  events_of id ((id, e) :: l) = e :: events_of id l.
Proof. unfold events_of. cbn. now rewrite Nat.eqb_refl. Qed.

Lemma events_of_silent (id : nat) (l : list (nat * Event)) :
  events_of id l = [] <-> (forall e, ~ In (id, e) l).
Proof.
  unfold events_of. induction l as [| [j e] l IH]; cbn.
  - split; [intros _ e [] | reflexivity].
  - destruct (Nat.eqb_spec j id) as [-> | Hne]; cbn.
    + split; [discriminate |]. intros H. elim (H e). now left.
    + rewrite IH. split.
      * intros H e' [Heq | Hin]; [congruence | exact (H e' Hin)].
      * intros H e' Hin. apply (H e'). now right.
Qed.

Lemma visible_app (t1 t2 : list Event) :
  visible (t1 ++ t2) = visible t1 ++ visible t2.
Proof. unfold visible. apply filter_app. Qed.

Lemma count_visible (p : Event -> bool) (t : list Event) :
  count p t = 0 -> count p (visible t) = 0.
Proof.
  unfold count, visible. induction t as [| e t IH]; cbn; [reflexivity |].
  destruct (p e) eqn:Hp; cbn; [discriminate |].
  intros H. destruct e; cbn; rewrite ?Hp; cbn; auto.
Qed.

(** How a run ends: whatever comes before holds no decode; then either
    nothing, or a decode that threw or whose payload did not parse, or a
    decode followed by the post of its parsed payload. *)
Lemma listener_ending (w : World) (data : value) :
  exists before,
    count is_decode before = 0
    /\ (fst (listener w data) = before
        \/ (exists instance audio,
               fst (listener w data) = before ++ [EDecode instance audio]
               /\ ((exists e, decode w instance audio = inl e)
                   \/ exists payload e,
                        decode w instance audio = inr payload
                        /\ JSON_parse w payload = inl e))
        \/ (exists instance audio payload output,
               fst (listener w data)
               = before ++ [EDecode instance audio;
                            EPost (result_message output)]
               /\ decode w instance audio = inr payload
               /\ JSON_parse w payload = inr output)).
Proof.
  rewrite listener_unfold.
  pose proof (loader_trace_network w model) as Hnet.
  destruct (loadAssets w model) as [t0 r0]. cbn [fst] in Hnet.
  pose proof (network_no_decode _ Hnet) as Hquiet.
  destruct r0; cbv zeta;
    repeat match goal with
           | |- context [match ?c with inl _ => _ | inr _ => _ end] =>
               destruct c eqn:?
           end;
    cbn [fst].
  all: try (eexists; split; [| left; reflexivity];
            rewrite ?count_app, Hquiet; reflexivity).
  - eexists (t0 ++ [EInit; EAwait; ENew _; EFetch _; EAwait;
                    EArrayBuffer _; EAwait]).
    split; [rewrite count_app, Hquiet; reflexivity |].
    right. left. do 2 eexists. rewrite <- app_assoc. split; [reflexivity |].
    left. eauto.
  - eexists (t0 ++ [EInit; EAwait; ENew _; EFetch _; EAwait;
                    EArrayBuffer _; EAwait]).
    split; [rewrite count_app, Hquiet; reflexivity |].
    right. left. do 2 eexists. rewrite <- app_assoc. split; [reflexivity |].
    right. eauto.
  - eexists (t0 ++ [EInit; EAwait; ENew _; EFetch _; EAwait;
                    EArrayBuffer _; EAwait]).
    split; [rewrite count_app, Hquiet; reflexivity |].
    right. right. do 4 eexists. rewrite <- app_assoc.
    split; [reflexivity |]. split; eassumption.
Qed.

Lemma decode_found_in_ending (A R P T : list Event) (d : Event) :
  A ++ d :: R = P ++ T ->
  is_decode d = true ->
  count is_decode P = 0 ->
  exists A', A = P ++ A' /\ T = A' ++ d :: R.
Proof.
  revert A. induction P as [| p P IH]; intros A Heq Hd Hquiet.
  - exists A. now split.
  - unfold count in Hquiet. cbn in Hquiet.
    destruct (is_decode p) eqn:Hp; [discriminate |].
    destruct A as [| a A]; cbn in Heq; injection Heq as Hhd Htl.
    + congruence.
    + subst a. destruct (IH A Htl Hd Hquiet) as (A' & -> & ->).
      exists A'. now split.
Qed.

(** C8, as the code has it.  However the runs of any number of requests
    interleave at their awaits, a run's call of [decode] and its
    [postMessage] happen in one turn.  Wherever the log shows run [i]
    calling [decode], run [i] is the run of the [i]-th request, and: if
    that call returned a payload that [JSON.parse] accepted, the very next
    entry of the log is run [i] posting the complete result with the
    parsed payload; if the call threw, or the payload did not parse, run
    [i] does nothing at all afterwards.  So nothing of another request
    ever comes between a decode and its result message. *)
Theorem decode_and_post_share_a_turn
    (reqs : list Request) (picks : list Pick) (s : Loop) :
  run picks (start reqs) = Some s ->
  forall pre i instance audio post,
    log s = pre ++ (i, EDecode instance audio) :: post ->
    exists w data,
      nth_error reqs i = Some (w, data)
      /\ match decode w instance audio with
         | inl _ => forall e, ~ In (i, e) post
         | inr payload =>
             match JSON_parse w payload with
             | inl _ => forall e, ~ In (i, e) post
             | inr output =>
                 exists post',
                   post = (i, EPost (result_message output)) :: post'
             end
         end.
Proof.
  intros Hrun pre i instance audio post Hsplit.
  assert (Hstart :
    inbox (start reqs) = skipn (length (tasks (start reqs))) reqs
    /\ (forall x, In x (log (start reqs)) ->
                  fst x < length (tasks (start reqs)))
    /\ (forall i w data rest,
           nth_error reqs i = Some (w, data) ->
           nth_error (tasks (start reqs)) i = Some rest ->
           events_of i (log (start reqs)) ++ concat rest
           = visible (fst (listener w data)))).
  { cbn. repeat split; [intros x [] |].
    intros j w data rest _ H. destruct j; discriminate. }
  destruct (run_keeps_order reqs picks (start reqs) s Hrun Hstart)
    as (_ & Hids & Horder).
  pose proof (run_keeps_count reqs picks (start reqs) s Hrun Hstart
                (Nat.le_0_l _)) as Hbound.
  destruct (run_keeps_settled picks (start reqs) s Hrun) as [_ Hsettled].
  { split; [constructor |]. intros pre0 ? ? ? ? H. now destruct pre0. }
  assert (Hi : i < length (tasks s)).
  { apply (Hids (i, EDecode instance audio)). rewrite Hsplit.
    apply in_or_app. right. now left. }
  destruct (nth_error reqs i) as [[w data] |] eqn:Hreq;
    [| apply nth_error_None in Hreq; lia].
  destruct (nth_error (tasks s) i) as [rest |] eqn:Htask;
    [| apply nth_error_None in Htask; lia].
  exists w, data. split; [reflexivity |].
  specialize (Horder i w data rest Hreq Htask).
  rewrite Hsplit, events_of_app, events_of_cons_same in Horder.
  rewrite <- app_assoc in Horder. cbn [app] in Horder.
  destruct (listener_ending w data) as (before & Hquiet & Hending).
  assert (Hcut : forall tail,
             fst (listener w data) = before ++ tail ->
             visible tail = tail ->
             exists A',
               tail = A' ++ EDecode instance audio
                         :: events_of i post ++ concat rest).
  { intros tail Htrace Htail. rewrite Htrace, visible_app, Htail in Horder.
    destruct (decode_found_in_ending _ _ _ _ _ Horder eq_refl
                (count_visible _ _ Hquiet)) as (A' & _ & HT).
    now exists A'. }
  destruct Hending
    as [Hnone
       | [(inst0 & audio0 & Htrace & Hfail)
         | (inst0 & audio0 & payload & output & Htrace & Hdec & Hparse)]].
  - destruct (Hcut [] ltac:(now rewrite app_nil_r) eq_refl) as [A' HT].
    now destruct A'.
  - destruct (Hcut _ Htrace eq_refl) as [A' HT].
    destruct A' as [| a [| ? ?]]; try discriminate.
    cbn in HT. injection HT as <- <- Hrest.
    symmetry in Hrest. apply app_eq_nil in Hrest. destruct Hrest as [Hpost _].
    pose proof (proj1 (events_of_silent i post) Hpost) as Hsilent.
    destruct Hfail as [[e Hdec] | (payload & e & Hdec & Hparse)];
      rewrite Hdec; [exact Hsilent |]. now rewrite Hparse.
  - destruct (Hcut _ Htrace eq_refl) as [A' HT].
    destruct A' as [| a [| ? [| ? ?]]]; try discriminate.
    cbn in HT. injection HT as <- <- Hrest.
    rewrite Hdec, Hparse.
    destruct (Hsettled pre i inst0 audio0 post Hsplit)
      as [(m & post' & ->) | [Hsilent Hdone]].
    + rewrite events_of_cons_same in Hrest. cbn in Hrest.
      injection Hrest as <- _. now exists post'.
    + rewrite (proj2 (events_of_silent i post) Hsilent) in Hrest.
      rewrite Htask in Hdone. injection Hdone as ->. discriminate.
Qed.

Lemma decode_and_post_share_a_turn_witness :
  exists w data,
    nth_error Scenario.two_requests 1 = Some (w, data)
    /\ match decode w (mkDecoder 0) (list_byte_of_string "blob:b") with
       | inl _ => forall e, ~ In (1, e) (skipn 24 (log Scenario.overtaken))
       | inr payload =>
           match JSON_parse w payload with
           | inl _ => forall e, ~ In (1, e) (skipn 24 (log Scenario.overtaken))
           | inr output =>
               exists post',
                 skipn 24 (log Scenario.overtaken)
                 = (1, EPost (result_message output)) :: post'
           end
       end.
Proof.
  apply (decode_and_post_share_a_turn
           Scenario.two_requests Scenario.overtaking Scenario.overtaken
           eq_refl
           (firstn 23 (log Scenario.overtaken)) 1
           (mkDecoder 0) (list_byte_of_string "blob:b")).
  reflexivity.
Defined.

(** C8 as stated fails: with two requests in flight, the second run can
    call [decode] (and post its result) while the first run is still
    waiting for its audio, so before the first result message exists. *)
Lemma second_decode_overtakes_first_result :
  run Scenario.overtaking (start Scenario.two_requests)
  = Some Scenario.overtaken
  /\ position (decode_of 1) (log Scenario.overtaken) = Some 23
  /\ position (post_of 0) (log Scenario.overtaken) = Some 27.
Proof. repeat split; reflexivity. Qed.

End LoopMore.
